(** * Taakad: the secret-sharing ("MPC") module

    A shallow embedding of the classes [ShamirSecretShare] and
    [MPCFramework] of the server's mpc module, and the properties the
    specification states about them.

    Conventions of the embedding:
    - a JavaScript [bigint] is a [Z]; [%] is [Z.rem] and [/] is [Z.quot]
      (both truncate towards zero);
    - share counts and loop indices ([n], [k], [i], [j], [exp]) are [nat];
    - the numbers the module handles are integer-valued doubles and NaN;
    - [randomBytes], [uuidv4] and [Date.now] read an explicit [World];
      the two party maps live in the same [World];
    - a thrown exception is the [Throw] case of [result];
    - [console.log] is left out: nothing reads what it prints. *)

From Stdlib Require Import ZArith List String Ascii Lia HexString DecimalString.
From Stdlib Require Import Zwf.
From Stdlib Require Import Bool Znumtheory DecimalZ.
From Equations Require Import Equations.
From stdpp Require Import gmap strings well_founded.
Import ListNotations.

Local Open Scope Z_scope.

(** ** JavaScript primitives *)

Module BigInt.

(** [z.toString(16)]: lower-case digits, a leading minus sign for a
    negative value. *)
Definition toString16 (z : Z) : string :=
  match z with
  | Z0 => "0"
  | Zpos p => HexString.Raw.of_pos p EmptyString
  | Zneg p => String "-" (HexString.Raw.of_pos p EmptyString)
  end.

(** [z.toString()]: decimal. *)
Definition toString (z : Z) : string :=
  NilZero.string_of_int (Z.to_int z).

(** The digits after the ["0x"] prefix of a literal handed to [BigInt]:
    [None] on a character that is not a hexadecimal digit. *)
Fixpoint hex_digits (s : string) (acc : N) : option N :=
  match s with
  | EmptyString => Some acc
  | String ch s' =>
      match HexString.ascii_to_digit ch with
      | Some v => hex_digits s' (v + 16 * acc)%N
      | None => None
      end
  end.

(** [BigInt('0x' + s)]: the value of the digits, or no value (a
    SyntaxError in the source) when [s] is empty or holds another
    character.  (White space at the end of a literal, which [BigInt]
    skips, occurs in no string the module writes and counts as another
    character here.) *)
Definition of_hex (s : string) : option Z :=
  match s with
  | EmptyString => None
  | _ => option_map Z.of_N (hex_digits s 0%N)
  end.

End BigInt.

(** [s.padStart(target, c)] for a one-character pad [c]. *)
Fixpoint repeat_char (n : nat) (c : ascii) : string :=
  match n with
  | O => EmptyString
  | S n' => String c (repeat_char n' c)
  end.

Definition padStart (target : nat) (c : ascii) (s : string) : string :=
  (repeat_char (target - String.length s) c ++ s)%string.

(** The numbers of this module: NaN, or a double with an integer value. *)
Inductive number : Type :=
| NaN
| Int (z : Z).

Definition isNaN (x : number) : bool :=
  match x with
  | NaN => true
  | Int _ => false
  end.

(** Rounding of a non-negative integer to 53 significant bits, to nearest
    and ties to even: the value of the double nearest to it. *)
Definition round53 (z : Z) : Z :=
  if z <? 2 ^ 53 then z
  else
    let e := Z.log2 z - 52 in
    let q := Z.shiftr z e in
    let r := z - Z.shiftl q e in
    let half := Z.shiftl 1 (e - 1) in
    let q' :=
      if r <? half then q
      else if half <? r then q + 1
      else if Z.even q then q else q + 1 in
    Z.shiftl q' e.

(** [Number(z)] for a bigint [z] below 2^1024 in absolute value (every
    bigint [decode] converts is below [PRIME]): never NaN. *)
Definition Number_of_bigint (z : Z) : number :=
  Int (Z.sgn z * round53 (Z.abs z)).

(** ** SHA-256 (FIPS 180-4)

    [createHash('sha256').update(s).digest('hex')] of node's crypto
    module.  A string is the list of its UTF-8 bytes. *)

Module SHA256.

Definition w32 (x : Z) : Z := x mod 2 ^ 32.

Definition rotr (n x : Z) : Z :=
  Z.lor (Z.shiftr x n) (w32 (Z.shiftl x (32 - n))).

Definition Ch (x y z : Z) : Z :=
  Z.lxor (Z.land x y) (Z.land (Z.lxor x (2 ^ 32 - 1)) z).

Definition Maj (x y z : Z) : Z :=
  Z.lxor (Z.lxor (Z.land x y) (Z.land x z)) (Z.land y z).

Definition Sigma0 (x : Z) : Z :=
  Z.lxor (Z.lxor (rotr 2 x) (rotr 13 x)) (rotr 22 x).

Definition Sigma1 (x : Z) : Z :=
  Z.lxor (Z.lxor (rotr 6 x) (rotr 11 x)) (rotr 25 x).

Definition sigma0 (x : Z) : Z :=
  Z.lxor (Z.lxor (rotr 7 x) (rotr 18 x)) (Z.shiftr x 3).

Definition sigma1 (x : Z) : Z :=
  Z.lxor (Z.lxor (rotr 17 x) (rotr 19 x)) (Z.shiftr x 10).

(** Round constants, in decimal. *)
Definition K : list Z :=
  [ 1116352408; 1899447441; 3049323471; 3921009573; 961987163; 1508970993;
    2453635748; 2870763221; 3624381080; 310598401; 607225278; 1426881987;
    1925078388; 2162078206; 2614888103; 3248222580; 3835390401; 4022224774;
    264347078; 604807628; 770255983; 1249150122; 1555081692; 1996064986;
    2554220882; 2821834349; 2952996808; 3210313671; 3336571891; 3584528711;
    113926993; 338241895; 666307205; 773529912; 1294757372; 1396182291;
    1695183700; 1986661051; 2177026350; 2456956037; 2730485921; 2820302411;
    3259730800; 3345764771; 3516065817; 3600352804; 4094571909; 275423344;
    430227734; 506948616; 659060556; 883997877; 958139571; 1322822218;
    1537002063; 1747873779; 1955562222; 2024104815; 2227730452; 2361852424;
    2428436474; 2756734187; 3204031479; 3329325298 ].

Definition state : Type := (Z * Z * Z * Z * Z * Z * Z * Z)%type.

Definition initial : state :=
  (1779033703, 3144134277, 1013904242, 2773480762,
   1359893119, 2600822924, 528734635, 1541459225).

(** Message bytes, then 0x80, zero bytes up to 56 modulo 64, and the bit
    length on eight bytes. *)
Definition be_bytes (count : nat) (v : Z) : list Z :=
  map (fun i => Z.shiftr v (8 * Z.of_nat i) mod 256) (rev (seq 0 count)).

Definition pad (msg : list Z) : list Z :=
  let len := Z.of_nat (length msg) in
  msg ++ [128] ++ repeat 0 (Z.to_nat ((55 - len) mod 64))
      ++ be_bytes 8 (8 * len).

Definition be_word (bytes : list Z) : Z :=
  fold_left (fun acc b => acc * 256 + b) bytes 0.

Fixpoint chunks (count size : nat) (l : list Z) : list (list Z) :=
  match count with
  | O => []
  | S count' => firstn size l :: chunks count' size (skipn size l)
  end.

(** The 64 words of the message schedule of one 64-byte block. *)
Definition schedule (block : list Z) : list Z :=
  fold_left
    (fun W t =>
       W ++ [w32 (sigma1 (nth (t - 2) W 0) + nth (t - 7) W 0
                  + sigma0 (nth (t - 15) W 0) + nth (t - 16) W 0)])
    (seq 16 48)
    (map be_word (chunks 16 4 block)).

Definition round (s : state) (kw : Z * Z) : state :=
  let '(a, b, c, d, e, f, g, h) := s in
  let T1 := h + Sigma1 e + Ch e f g + fst kw + snd kw in
  let T2 := Sigma0 a + Maj a b c in
  (w32 (T1 + T2), a, b, c, w32 (d + T1), e, f, g).

Definition compress (s : state) (block : list Z) : state :=
  let '(a, b, c, d, e, f, g, h) :=
    fold_left round (combine K (schedule block)) s in
  let '(a0, b0, c0, d0, e0, f0, g0, h0) := s in
  (w32 (a0 + a), w32 (b0 + b), w32 (c0 + c), w32 (d0 + d),
   w32 (e0 + e), w32 (f0 + f), w32 (g0 + g), w32 (h0 + h)).

Definition bytes_of_string (s : string) : list Z :=
  map (fun c => Z.of_N (N_of_ascii c)) (list_ascii_of_string s).

Definition hash_words (s : string) : list Z :=
  let padded := pad (bytes_of_string s) in
  let '(a, b, c, d, e, f, g, h) :=
    fold_left compress (chunks (length padded / 64) 64 padded) initial in
  [a; b; c; d; e; f; g; h].

(** The 32 digest bytes read as one big-endian integer. *)
Definition digest_int (s : string) : Z :=
  fold_left (fun acc w => acc * 2 ^ 32 + w32 w) (hash_words s) 0.

(** [digest('hex')]: two lower-case digits per byte, 64 characters. *)
Definition digest_hex (s : string) : string :=
  padStart 64 "0" (BigInt.toString16 (digest_int s)).

End SHA256.

(** ** Effects: exceptions, and the world the module reads and writes *)

(** What the module can throw: the two [Error]s of [ShamirSecretShare],
    [BigInt]'s SyntaxError on a malformed literal (the specification's
    InvalidArgument), its RangeError on a number that is not an integer,
    and the TypeError of a method call on [undefined]. *)
Inductive error : Type :=
| InvalidThreshold     (* new Error("Threshold k must be <= n") *)
| InsufficientShares   (* new Error("Need at least 2 shares") *)
| InvalidArgument      (* SyntaxError: Cannot convert ... to a BigInt *)
| RangeError
| TypeError.

Inductive result (A : Type) : Type :=
| Ok (a : A)
| Throw (e : error).
Arguments Ok {A} a.
Arguments Throw {A} e.

Definition bind_result {A B : Type} (m : result A) (k : A -> result B)
  : result B :=
  match m with
  | Ok a => k a
  | Throw e => Throw e
  end.

(** [entropy i] is the i-th answer of [randomBytes(32)] read as an
    integer, [uuids i] the i-th answer of [uuidv4()], [now] the clock;
    [drawn] and [issued] count the answers consumed so far. *)
Record World : Type := {
  entropy : nat -> Z;
  drawn : nat;
  uuids : nat -> string;
  issued : nat;
  now : Z;
  party1Shares : gmap string Z;
  party2Shares : gmap string Z
}.

Definition M (A : Type) : Type := World -> result (A * World).

Definition ret {A : Type} (a : A) : M A := fun w => Ok (a, w).

Definition bind {A B : Type} (m : M A) (k : A -> M B) : M B :=
  fun w =>
    match m w with
    | Ok (a, w') => k a w'
    | Throw e => Throw e
    end.

Definition lift {A : Type} (r : result A) : M A :=
  fun w =>
    match r with
    | Ok a => Ok (a, w)
    | Throw e => Throw e
    end.

Notation "x <- m ;; k" := (bind m (fun x => k))
  (at level 100, m at next level, right associativity).
Notation "x <~ m ;; k" := (bind_result m (fun x => k))
  (at level 100, m at next level, right associativity).

(** [BigInt('0x' + randomBytes(32).toString('hex'))]: 256 fresh bits. *)
Definition randomBytes32 : M Z :=
  fun w =>
    Ok (entropy w (drawn w) mod 2 ^ 256,
        {| entropy := entropy w; drawn := S (drawn w);
           uuids := uuids w; issued := issued w; now := now w;
           party1Shares := party1Shares w;
           party2Shares := party2Shares w |}).

Definition uuidv4 : M string :=
  fun w =>
    Ok (uuids w (issued w),
        {| entropy := entropy w; drawn := drawn w;
           uuids := uuids w; issued := S (issued w); now := now w;
           party1Shares := party1Shares w;
           party2Shares := party2Shares w |}).

Definition Date_now : M Z := fun w => Ok (now w, w).

Definition party1Shares_set (key : string) (v : Z) : M unit :=
  fun w =>
    Ok (tt,
        {| entropy := entropy w; drawn := drawn w;
           uuids := uuids w; issued := issued w; now := now w;
           party1Shares := <[key := v]> (party1Shares w);
           party2Shares := party2Shares w |}).

Definition party2Shares_set (key : string) (v : Z) : M unit :=
  fun w =>
    Ok (tt,
        {| entropy := entropy w; drawn := drawn w;
           uuids := uuids w; issued := issued w; now := now w;
           party1Shares := party1Shares w;
           party2Shares := <[key := v]> (party2Shares w) |}).

(** [BigInt('0x' + s)], throwing on a malformed literal. *)
Definition BigInt_of_hex (s : string) : result Z :=
  match BigInt.of_hex s with
  | Some z => Ok z
  | None => Throw InvalidArgument
  end.

(** ** class ShamirSecretShare *)

Module ShamirSecretShare.

Definition PRIME : Z :=
  57896044618658097711785492504343953926634992332820282019728792003956564819949.

Definition bigintPow (base : Z) (exp : nat) : Z :=
  match exp with
  | O => 1
  | S O => base
  | _ => Nat.iter exp (fun result => Z.rem (result * base) PRIME) 1
  end.

(** The loop [for (let i = 1; i < k; i++)]: [count] draws, each pushed
    at the end of [coefficients]. *)
Fixpoint draw_coefficients (count : nat) (coefficients : list Z)
  : M (list Z) :=
  match count with
  | O => ret coefficients
  | S count' =>
      raw <- randomBytes32 ;;
      let randomCoeff := Z.rem raw PRIME in
      draw_coefficients count' (coefficients ++ [randomCoeff])
  end.

(** The inner loop over [coefficients], from index [i] on, with the
    running value [y]. *)
Fixpoint evaluate (coefficients : list Z) (x : Z) (i : nat) (y : Z) : Z :=
  match coefficients with
  | [] => y
  | c :: rest =>
      let xPower := bigintPow x i in
      evaluate rest x (S i) (Z.rem (y + Z.rem (c * xPower) PRIME) PRIME)
  end.

Definition splitSecret (secret : Z) (n k : nat) : M (list Z) :=
  if (n <? k)%nat then lift (Throw InvalidThreshold)
  else
    coefficients <- draw_coefficients (k - 1) [secret] ;;
    ret (map (fun x => evaluate coefficients (Z.of_nat x) 0 0) (seq 1 n)).

(** The order the loop of [modInverse] descends along: smaller absolute
    value.  The guard keeps the proof of well-foundedness out of the way
    of evaluation. *)
#[local] Instance Zwf_guarded : WellFounded (Zwf 0) :=
  wf_guard 64 (Zwf_well_founded 0).

(** The [while (r !== 0n)] loop of [modInverse]; it ends because the
    absolute value of [r] decreases. *)
Equations? modInverse_loop (old_r r old_s s : Z) : Z
  by wf (Z.abs r) (Zwf 0) :=
  modInverse_loop old_r r old_s s with Z.eq_dec r 0 => {
    | left _ => old_s
    | right _ =>
        let quotient := Z.quot old_r r in
        modInverse_loop r (old_r - quotient * r) s (old_s - quotient * s) }.
Proof.
  unfold Zwf.
  pose proof (Z.quot_rem' old_r r).
  pose proof (Z.rem_bound_abs old_r r).
  lia.
Qed.
#[global] Transparent modInverse_loop.

Definition modInverse (a : Z) : Z :=
  let old_s := modInverse_loop a PRIME 1 0 in
  if old_s <? 0 then old_s + PRIME else old_s.

(** Numerator and denominator of the i-th Lagrange coefficient at 0. *)
Definition lagrange_products (x_coords : list Z) (count i : nat) : Z * Z :=
  fold_left
    (fun '(numerator, denominator) j =>
       if (i =? j)%nat then (numerator, denominator)
       else
         let diff_numerator :=
           Z.rem (Z.rem (0 - nth j x_coords 0) PRIME + PRIME) PRIME in
         let diff_denom :=
           Z.rem (Z.rem (nth i x_coords 0 - nth j x_coords 0) PRIME + PRIME)
                 PRIME in
         (Z.rem (numerator * diff_numerator) PRIME,
          Z.rem (denominator * diff_denom) PRIME))
    (seq 0 count) (1, 1).

Definition reconstructSecret (shares : list Z) : result Z :=
  if (length shares <? 2)%nat then Throw InsufficientShares
  else
    let x_coords := map (fun i => Z.of_nat (i + 1)) (seq 0 (length shares)) in
    let secret :=
      fold_left
        (fun secret i =>
           let '(numerator, denominator) :=
             lagrange_products x_coords (length shares) i in
           let lagrange := Z.rem (numerator * modInverse denominator) PRIME in
           let term := Z.rem (nth i shares 0 * lagrange) PRIME in
           Z.rem (secret + term) PRIME)
        (seq 0 (length shares)) 0 in
    let finalSecret := if secret <? 0 then secret + PRIME else secret in
    Ok finalSecret.

End ShamirSecretShare.

(** ** class MPCFramework *)

(** [string | number], the argument of [encode] and the answer of
    [decode]. *)
Inductive value : Type :=
| Str (s : string)
| Num (x : number).

Inductive share_tag : Type := MPC_SHARE.

Record Shares : Type := {
  party1 : string;
  party2 : string
}.

Record Metadata : Type := {
  fieldName : string;
  timestamp : Z;
  partyCount : Z;
  threshold : Z
}.

Record SecureValue : Type := {
  id : string;
  type_ : share_tag;
  shares : Shares;
  metadata : Metadata
}.

Module MPCFramework.

Import ShamirSecretShare.

(** [BigInt(Math.floor(Number(value)))] on a number: the integer itself,
    a RangeError on NaN. *)
Definition BigInt_of_number (x : number) : result Z :=
  match x with
  | Int z => Ok z
  | NaN => Throw RangeError
  end.

Definition encode (v : value) (fieldName : string) : M SecureValue :=
  let PRIME :=
    57896044618658097711785492504343953926634992332820282019728792003956564819949 in
  secretValue <-
    match v with
    | Str s =>
        let hash := SHA256.digest_hex s in
        h <- lift (BigInt_of_hex hash) ;;
        ret (Z.rem h PRIME)
    | Num x => lift (BigInt_of_number x)
    end ;;
  shares <- splitSecret secretValue 2 2 ;;
  shareId <- uuidv4 ;;
  match shares with
  | share0 :: share1 :: _ =>
      _ <- party1Shares_set (shareId ++ ":0") share0 ;;
      _ <- party2Shares_set (shareId ++ ":1") share1 ;;
      t <- Date_now ;;
      ret {| id := shareId;
             type_ := MPC_SHARE;
             shares :=
               {| party1 := padStart 64 "0" (BigInt.toString16 share0);
                  party2 := padStart 64 "0" (BigInt.toString16 share1) |};
             metadata :=
               {| fieldName := fieldName; timestamp := t;
                  partyCount := 2; threshold := 2 |} |}
  | _ => lift (Throw TypeError)
  end.

Definition decode (secureValue : SecureValue) : result value :=
  share1 <~ BigInt_of_hex (party1 (shares secureValue)) ;;
  share2 <~ BigInt_of_hex (party2 (shares secureValue)) ;;
  reconstructed <~ reconstructSecret [share1; share2] ;;
  let result := Number_of_bigint reconstructed in
  let finalResult :=
    if isNaN result then Str (BigInt.toString reconstructed)
    else Num result in
  Ok finalResult.

Definition encodeBoolean (b : bool) (fieldName : string) : M SecureValue :=
  encode (Num (Int (if b then 1 else 0))) fieldName.

Definition secureEquality (sv1 sv2 : SecureValue) : M SecureValue :=
  a1 <- lift (BigInt_of_hex (party1 (shares sv1))) ;;
  a2 <- lift (BigInt_of_hex (party2 (shares sv1))) ;;
  b1 <- lift (BigInt_of_hex (party1 (shares sv2))) ;;
  b2 <- lift (BigInt_of_hex (party2 (shares sv2))) ;;
  let PRIME :=
    57896044618658097711785492504343953926634992332820282019728792003956564819949 in
  let diff1 := Z.rem (a1 - b1 + PRIME) PRIME in
  let diff2 := Z.rem (a2 - b2 + PRIME) PRIME in
  let isEqual := if (diff1 =? 0) && (diff2 =? 0) then 1 else 0 in
  encodeBoolean (isEqual =? 1)
    (fieldName (metadata sv1) ++ "_eq_" ++ fieldName (metadata sv2)).

(** [value === 1] on an answer of [decode]. *)
Definition is_one (v : value) : bool :=
  match v with
  | Num (Int z) => z =? 1
  | _ => false
  end.

(** The [for ... of] loop of [secureAnd], with the running [result]. *)
Fixpoint and_loop (booleanShares : list SecureValue) (result : Z)
  : M Z :=
  match booleanShares with
  | [] => ret result
  | share :: rest =>
      v <- lift (decode share) ;;
      and_loop rest (if (result =? 1) && is_one v then 1 else 0)
  end.

Definition secureAnd (booleanShares : list SecureValue) : M SecureValue :=
  result <- and_loop booleanShares 1 ;;
  encodeBoolean (result =? 1) "combined_result".

(** The [for ... of] loop of [secureAggregate], with the running [sum]. *)
Fixpoint sum_loop (secureValues : list SecureValue) (sum : Z) : M Z :=
  match secureValues with
  | [] => ret sum
  | sv :: rest =>
      share1 <- lift (BigInt_of_hex (party1 (shares sv))) ;;
      share2 <- lift (BigInt_of_hex (party2 (shares sv))) ;;
      sum_loop rest (sum + share1 + share2)
  end.

Definition secureAggregate (secureValues : list SecureValue)
  : M SecureValue :=
  sum <- sum_loop secureValues 0 ;;
  resultId <- uuidv4 ;;
  let sum1 := Z.quot sum 2 in
  let sum2 := sum - sum1 in
  _ <- party1Shares_set (resultId ++ ":0") sum1 ;;
  _ <- party2Shares_set (resultId ++ ":1") sum2 ;;
  t <- Date_now ;;
  ret {| id := resultId;
         type_ := MPC_SHARE;
         shares :=
           {| party1 := padStart 64 "0" (BigInt.toString16 sum1);
              party2 := padStart 64 "0" (BigInt.toString16 sum2) |};
         metadata :=
           {| fieldName := "aggregated_sum"; timestamp := t;
              partyCount := 2; threshold := 2 |} |}.

(** [share ? share.toString(16) : undefined]: a stored zero is falsy. *)
Definition getParty1Share (shareId : string) (w : World) : option string :=
  match party1Shares w !! (shareId ++ ":0")%string with
  | Some share => if share =? 0 then None else Some (BigInt.toString16 share)
  | None => None
  end.

Definition getParty2Share (shareId : string) (w : World) : option string :=
  match party2Shares w !! (shareId ++ ":1")%string with
  | Some share => if share =? 0 then None else Some (BigInt.toString16 share)
  | None => None
  end.

End MPCFramework.

(** ** Vocabulary of the statements *)

Import ShamirSecretShare MPCFramework.

(** The last line of [reconstructSecret]. *)
Definition normalize (secret : Z) : Z :=
  if secret <? 0 then secret + PRIME else secret.

(** The degree-1 coefficient [splitSecret] draws in the world [w], and the
    world it leaves. *)
Definition coefficient (w : World) : Z :=
  Z.rem (entropy w (drawn w) mod 2 ^ 256) PRIME.

Definition after_draw (w : World) : World :=
  {| entropy := entropy w; drawn := S (drawn w);
     uuids := uuids w; issued := issued w; now := now w;
     party1Shares := party1Shares w;
     party2Shares := party2Shares w |}.

(** A field element: an integer of [0, PRIME). *)
Definition in_field (z : Z) : Prop := 0 <= z < PRIME.

(** The value of the polynomial [s + a x] over the field. *)
Definition line (s a x : Z) : Z := (s + a * x) mod PRIME.

(** A valid record for the secret [s]: its two shares are field elements,
    the values at 1 and 2 of a line whose constant term is [s]. *)
Definition valid_for (r : SecureValue) (s : Z) : Prop :=
  in_field s /\
  exists y1 y2 a,
    BigInt.of_hex (party1 (shares r)) = Some y1 /\
    BigInt.of_hex (party2 (shares r)) = Some y2 /\
    in_field y1 /\ in_field y2 /\ in_field a /\
    y1 = line s a 1 /\ y2 = line s a 2.

(** The hexadecimal value appended to an accumulator, as [hex_digits]
    does it. *)
Definition hex_app (base : N) (p : positive) : N :=
  match base with
  | N0 => Npos p
  | Npos v => Npos (HexString.pos_hex_app v p)
  end.

(** A world for the examples: [randomBytes] answers the elements of [rs]
    in turn (then zero), and nothing is stored yet. *)
Definition world_of (rs : list Z) : World :=
  {| entropy := fun i => nth i rs 0; drawn := 0;
     uuids := fun i => BigInt.toString (Z.of_nat i); issued := 0;
     now := 1700000000000;
     party1Shares := ∅; party2Shares := ∅ |}.

(** The record of a run, when it returns. *)
Definition returned {A : Type} (r : result (A * World)) : option A :=
  match r with
  | Ok (a, _) => Some a
  | Throw _ => None
  end.

(** The secp256k1 field prime. *)
Definition secp256k1_prime : Z := 2 ^ 256 - 2 ^ 32 - 977.

(** A share of [splitSecret secret 2 2] at the abscissa [x], as the two
    nested loops compute it from the coefficients [secret; a]. *)
Definition raw_share (secret a x : Z) : Z :=
  Z.rem (Z.rem (0 + Z.rem (secret * 1) PRIME) PRIME + Z.rem (a * x) PRIME)
        PRIME.

(** The record [encode] and [secureAggregate] build around two shares. *)
Definition share_record (i : string) (y1 y2 : Z) (f : string) (t : Z)
  : SecureValue :=
  {| id := i;
     type_ := MPC_SHARE;
     shares :=
       {| party1 := padStart 64 "0" (BigInt.toString16 y1);
          party2 := padStart 64 "0" (BigInt.toString16 y2) |};
     metadata :=
       {| fieldName := f; timestamp := t; partyCount := 2; threshold := 2 |} |}.

(** The world after [encode] stored the shares [y1] and [y2]: one draw,
    one identifier, one entry in each party map. *)
Definition after_encode (w : World) (y1 y2 : Z) : World :=
  {| entropy := entropy w; drawn := S (drawn w);
     uuids := uuids w; issued := S (issued w); now := now w;
     party1Shares := <[(uuids w (issued w) ++ ":0")%string := y1]> (party1Shares w);
     party2Shares := <[(uuids w (issued w) ++ ":1")%string := y2]> (party2Shares w) |}.

(** The world after [secureAggregate] stored the halves [sum1] and
    [sum2]: one identifier, one entry in each party map. *)
Definition after_aggregate (w : World) (sum1 sum2 : Z) : World :=
  {| entropy := entropy w; drawn := drawn w;
     uuids := uuids w; issued := S (issued w); now := now w;
     party1Shares := <[(uuids w (issued w) ++ ":0")%string := sum1]> (party1Shares w);
     party2Shares := <[(uuids w (issued w) ++ ":1")%string := sum2]> (party2Shares w) |}.

(** [decode(encode(v, f))]. *)
Definition decode_encode (v : value) (f : string) (w : World) : result value :=
  match encode v f w with
  | Ok (r, _) => decode r
  | Throw e => Throw e
  end.

(** [decode(secureEquality(encode(x, f), encode(y, f)))]. *)
Definition decode_equality (x y : value) (f : string) (w : World)
  : result value :=
  match (a <- encode x f ;; b <- encode y f ;; secureEquality a b) w with
  | Ok (r, _) => decode r
  | Throw e => Throw e
  end.

(** [secureAggregate([encode(x, f), encode(y, f)])]. *)
Definition aggregate_pair (x y : value) (f : string) : M SecureValue :=
  a <- encode x f ;; b <- encode y f ;; secureAggregate [a; b].

(** The integer shares a record holds, when both strings are read. *)
Definition shares_of (r : SecureValue) : option (Z * Z) :=
  match BigInt.of_hex (party1 (shares r)), BigInt.of_hex (party2 (shares r)) with
  | Some y1, Some y2 => Some (y1, y2)
  | _, _ => None
  end.

(** Whether two records hold the same two shares. *)
Definition same_shares (sv1 sv2 : SecureValue) : bool :=
  match shares_of sv1, shares_of sv2 with
  | Some (a1, a2), Some (b1, b2) => (a1 =? b1) && (a2 =? b2)
  | _, _ => false
  end.

(** The sum of all the shares of a sequence of records, when every share
    is read. *)
Fixpoint total_shares (l : list SecureValue) : option Z :=
  match l with
  | [] => Some 0
  | sv :: rest =>
      match shares_of sv, total_shares rest with
      | Some (y1, y2), Some t => Some (y1 + y2 + t)
      | _, _ => None
      end
  end.

(** Whether every record of a sequence decodes to the number 1. *)
Definition all_ones (l : list SecureValue) : bool :=
  forallb
    (fun sv =>
       match decode sv with
       | Ok v => is_one v
       | Throw _ => false
       end)
    l.

(** The bit a boolean is encoded as. *)
Definition bit (b : bool) : Z := if b then 1 else 0.

(** ** The routes that call the module

    The blocks of the server routes that use [encode] and [decode]: the
    code check of the checkout route, the code comparison of the verify
    route, and the issue of a code by the generate-code route.  The rows
    are the parsed [encryptedData] of the identities the route selected
    (at most 1000, and those that do not parse are skipped); only the
    fields these blocks read are kept. *)

(** [a === b] on two answers of [decode]: NaN equals nothing. *)
Definition strict_equal (a b : value) : bool :=
  match a, b with
  | Str x, Str y => String.eqb x y
  | Num (Int x), Num (Int y) => x =? y
  | _, _ => false
  end.

Record StoredData : Type := {
  verificationCode : option SecureValue;
  verificationCodeHash : option string;
  userId : option string
}.

(** The answers of the checkout route: status 400, status 404, and the
    body [{ verified, userId, reason }]. *)
Inductive CheckoutResponse : Type :=
| MissingCode
| CodeNotFound
| Verdict (verified : bool) (user : option string) (reason : option string).

(** A field that holds a string is truthy when the string is not empty. *)
Definition truthy (s : option string) : bool :=
  match s with
  | Some (String _ _) => true
  | _ => false
  end.

(** Step 1 of the checkout route: the first row whose stored hash is the
    hash of the code. *)
Fixpoint find_by_hash (rows : list StoredData) (codeHash : string)
  : option StoredData :=
  match rows with
  | [] => None
  | sd :: rest =>
      match verificationCodeHash sd with
      | Some h =>
          if truthy (Some h) && String.eqb h codeHash then Some sd
          else find_by_hash rest codeHash
      | None => find_by_hash rest codeHash
      end
  end.

(** Step 2 of the checkout route: [mpcCodeVerified].  It starts true;
    with a stored record the code is encoded, both records are decoded
    and compared, and whatever is thrown on the way makes it false. *)
Definition checkout_mpc_verified (stored : option SecureValue) (code : string)
  : M bool :=
  fun w =>
    match stored with
    | Some sv =>
        match encode (Str code) "verificationCode" w with
        | Ok (clientCodeMPC, w') =>
            match decode sv with
            | Ok decodedStoredCode =>
                match decode clientCodeMPC with
                | Ok decodedClientCode =>
                    Ok (strict_equal decodedStoredCode decodedClientCode, w')
                | Throw _ => Ok (false, w')
                end
            | Throw _ => Ok (false, w')
            end
        | Throw _ => Ok (false, w)
        end
    | None => Ok (true, w)
    end.

Definition checkout_verify (rows : list StoredData) (code : string)
  : M CheckoutResponse :=
  match code with
  | EmptyString => ret MissingCode
  | _ =>
      let codeHash := SHA256.digest_hex code in
      match find_by_hash rows codeHash with
      | None => ret CodeNotFound
      | Some storedData =>
          mpcCodeVerified <-
            checkout_mpc_verified (verificationCode storedData) code ;;
          let userIdPlain :=
            if truthy (userId storedData) then userId storedData else None in
          let denialReason :=
            if mpcCodeVerified then None else Some "MPC_NO_MATCH"%string in
          ret (Verdict mpcCodeVerified userIdPlain denialReason)
      end
  end.

(** The search of Number::toString for the shortest numeral: the least
    number [k] of digits for which some [s] of [k] digits, followed by
    [d - k] zeros, converts back to the number [z] of [d] digits; of two
    such [s] the closer, and the even one when equally close. *)
Fixpoint shortest_numeral (fuel : nat) (k z d : Z) : Z :=
  match fuel with
  | O => z
  | S fuel' =>
      let p := 10 ^ (d - k) in
      let s := z / p in
      let below := s * p in
      let above := (s + 1) * p in
      let ok_below := round53 below =? z in
      let ok_above := (s + 1 <? 10 ^ k) && (round53 above =? z) in
      if ok_below && ok_above then
        if z - below <? above - z then below
        else if above - z <? z - below then above
        else if Z.even s then below else above
      else if ok_below then below
      else if ok_above then above
      else shortest_numeral fuel' (k + 1) z d
  end.

(** The integer whose decimal numeral [String(z)] is, for a number [z]
    with 0 <= z < 10^21: [z] itself below 2^53, and from there on the
    shortest numeral that converts back to [z]. *)
Definition printed_integer (z : Z) : Z :=
  let d := Z.of_nat (String.length (BigInt.toString z)) in
  if round53 (10 ^ d) =? z then 10 ^ d
  else shortest_numeral (Z.to_nat d) 1 z d.

(** [String(x) === digits], where [digits] is the decimal numeral of a
    bigint.  From 10^21 on the string of a number is in exponent
    notation, with the letter e, which no such numeral holds. *)
Definition number_prints_as (x : number) (digits : string) : bool :=
  match x with
  | NaN => false
  | Int z =>
      (Z.abs z <? 10 ^ 21)
      && String.eqb (BigInt.toString (Z.sgn z * printed_integer (Z.abs z)))
                    digits
  end.

(** The block of the verify route that sets [codeMatches]; what [decode]
    throws leaves the block. *)
Definition code_matches (providedCode : option string)
           (stored : option SecureValue) : result bool :=
  match providedCode, stored with
  | Some code, Some sv =>
      if truthy (Some code) then
        let hashHex := SHA256.digest_hex code in
        h <~ BigInt_of_hex hashHex ;;
        let expectedBigInt :=
          Z.rem h
            57896044618658097711785492504343953926634992332820282019728792003956564819949 in
        decoded <~ decode sv ;;
        Ok match decoded with
           | Str decodedStr =>
               String.eqb decodedStr (BigInt.toString expectedBigInt)
           | Num x => number_prints_as x (BigInt.toString expectedBigInt)
           end
      else Ok false
  | _, _ => Ok false
  end.

(** [Number(s)] on the string that [decode] can answer, the decimal
    numeral of a bigint: the number nearest to it. *)
Definition Number_of_numeral (s : string) : number :=
  match NilZero.int_of_string s with
  | Some d => Number_of_bigint (Z.of_int d)
  | None => NaN
  end.

(** The block of the verify route that sets [isAdult]; what [decode]
    throws is caught inside the block. *)
Definition is_adult (age : option SecureValue) : bool :=
  match age with
  | Some sv =>
      match decode sv with
      | Ok decodedAge =>
          let ageNum :=
            match decodedAge with
            | Str s => Number_of_numeral s
            | Num x => x
            end in
          match ageNum with
          | Int n => 18 <=? n
          | NaN => false
          end
      | Throw _ => false
      end
  | None => false
  end.


(** The rules of the register route on [Number(input.age)], for an age
    that is an integer: status 400, status 403, or the flag [isMinor]
    with which the route goes on. *)
Inductive AgeRuling : Type :=
| AgeInvalid
| AgeUnder13
| AgeAccepted (isMinor : bool).

Definition register_age (age : number) : AgeRuling :=
  match age with
  | NaN => AgeInvalid
  | Int a =>
      if a <? 0 then AgeInvalid
      else if a <? 13 then AgeUnder13
      else AgeAccepted ((13 <=? a) && (a <? 18))
  end.

Definition alphabet : string := "ABCDEFGHIJKLMNOPQRSTUVWXYZ0123456789".

(** [s[i]] appended to a string: the character, or ["undefined"]. *)
Definition char_at (s : string) (i : Z) : string :=
  match String.get (Z.to_nat i) s with
  | Some c => String c EmptyString
  | None => "undefined"
  end.

(** The loop of the generate-code route over the bytes [rnd] of
    [randomBytes(8)]. *)
Definition generated_code (rnd : list Z) : string :=
  fold_left
    (fun code b =>
       (code ++ char_at alphabet (Z.rem b (Z.of_nat (String.length alphabet))))%string)
    rnd EmptyString.

(** The code the generate-code route answers and what it leaves in the
    parsed [encryptedData] of the identity [identityId], when the update
    of the row goes through. *)
Definition generate_code (existing : StoredData) (identityId : Z)
           (rnd : list Z) : M (string * StoredData) :=
  let code := generated_code rnd in
  sv <- encode (Str code) "verificationCode" ;;
  let codeHash := SHA256.digest_hex code in
  ret (code,
       {| verificationCode := Some sv;
          verificationCodeHash := Some codeHash;
          userId :=
            if truthy (userId existing) then userId existing
            else Some ("TAK-" ++ BigInt.toString identityId)%string |}).

(** ** Vocabulary of the further statements *)

(** The value of the polynomial [s + a x + b x^2] over the field. *)
Definition parabola (s a b x : Z) : Z := (s + a * x + b * (x * x)) mod PRIME.

(** The world [w] with a source of randomness that always answers [a]. *)
Definition with_entropy (a : Z) (w : World) : World :=
  {| entropy := fun _ => a; drawn := drawn w;
     uuids := uuids w; issued := issued w; now := now w;
     party1Shares := party1Shares w;
     party2Shares := party2Shares w |}.


(** ** Arithmetic of the field *)

Lemma PRIME_value : PRIME = 2 ^ 255 - 19.
Proof. reflexivity. Qed.

Lemma PRIME_pos : 0 < PRIME.
Proof. reflexivity. Qed.

Lemma rem_field (z : Z) : 0 <= z -> Z.rem z PRIME = z mod PRIME.
Proof. intros Hz. apply Z.rem_mod_nonneg; [exact Hz | exact PRIME_pos]. Qed.

Lemma mod_in_field (z : Z) : in_field (z mod PRIME).
Proof. apply Z.mod_pos_bound, PRIME_pos. Qed.

Lemma rem_abs_lt (z : Z) : - PRIME < Z.rem z PRIME < PRIME.
Proof.
  pose proof (Z.rem_bound_abs z PRIME) as H.
  pose proof PRIME_pos. lia.
Qed.

Lemma normalize_rem_in_field (z : Z) : in_field (normalize (Z.rem z PRIME)).
Proof.
  unfold normalize, in_field. pose proof (rem_abs_lt z).
  destruct (Z.ltb_spec (Z.rem z PRIME) 0); lia.
Qed.

Lemma normalize_field (z : Z) : in_field z -> normalize z = z.
Proof.
  unfold normalize, in_field. intros Hz.
  destruct (Z.ltb_spec z 0); [lia | reflexivity].
Qed.

Lemma coefficient_in_field (w : World) : in_field (coefficient w).
Proof.
  unfold coefficient. rewrite rem_field.
  - apply mod_in_field.
  - apply Z.mod_pos_bound. reflexivity.
Qed.

(** The two shares of [splitSecret s 2 2], as the loops compute them, are
    the values of the line at 1 and 2. *)
Lemma evaluate_line (s a x : Z) :
  in_field s -> in_field a -> 0 <= x -> raw_share s a x = line s a x.
Proof.
  unfold raw_share, in_field, line. intros Hs Ha Hx.
  pose proof PRIME_pos as HP.
  rewrite Z.mul_1_r, Z.add_0_l.
  rewrite (rem_field s) by lia.
  rewrite (rem_field (s mod PRIME)) by (apply Z.mod_pos_bound; lia).
  rewrite (rem_field (a * x)) by nia.
  rewrite rem_field.
  - rewrite Z.mod_mod by lia. rewrite <- Z.add_mod by lia. reflexivity.
  - pose proof (Z.mod_pos_bound (s mod PRIME) PRIME HP).
    pose proof (Z.mod_pos_bound (a * x) PRIME HP). lia.
Qed.

(** Lagrange interpolation at 0 through the points (1, y1) and (2, y2) of
    a line gives its constant term. *)
Lemma interpolate_line (s a : Z) :
  in_field s ->
  normalize
    (Z.rem (Z.rem (0 + Z.rem (line s a 1 * 2) PRIME) PRIME
            + Z.rem (line s a 2 * (PRIME - 1)) PRIME) PRIME) = s.
Proof.
  intros Hs. pose proof PRIME_pos as HP.
  pose proof (mod_in_field (s + a * 1)) as H1.
  pose proof (mod_in_field (s + a * 2)) as H2.
  unfold in_field, line in *.
  rewrite Z.add_0_l.
  rewrite (rem_field (_ * 2)) by lia.
  rewrite (rem_field (_ mod PRIME)) by (apply Z.mod_pos_bound; lia).
  rewrite (rem_field (_ * (PRIME - 1))) by nia.
  rewrite rem_field.
  2:{ pose proof (Z.mod_pos_bound ((((s + a * 1) mod PRIME * 2) mod PRIME)) PRIME HP).
      pose proof (Z.mod_pos_bound ((s + a * 2) mod PRIME * (PRIME - 1)) PRIME HP).
      lia. }
  rewrite Z.mod_mod by lia. rewrite <- Z.add_mod by lia.
  rewrite (Z.mod_eq (s + a * 1) PRIME) by lia.
  rewrite (Z.mod_eq (s + a * 2) PRIME) by lia.
  set (q1 := (s + a * 1) / PRIME). set (q2 := (s + a * 2) / PRIME).
  replace ((s + a * 1 - PRIME * q1) * 2 + (s + a * 2 - PRIME * q2) * (PRIME - 1))
    with (s + (s + a * 2 - PRIME * q2 - 2 * q1 + q2) * PRIME) by ring.
  rewrite Z.mod_add by lia. rewrite Z.mod_small by lia.
  apply normalize_field. exact Hs.
Qed.

(** ** Hexadecimal strings *)

Lemma hex_digits_of_pos_bounded (n : nat) :
  forall (p : positive) (rest : string) (base : N),
    (Pos.size_nat p <= n)%nat ->
    BigInt.hex_digits (HexString.Raw.of_pos p rest) base
    = BigInt.hex_digits rest (hex_app base p).
Proof.
  induction n as [| n IH]; intros p rest base Hn.
  - destruct p; simpl in Hn; lia.
  - do 4 (try destruct p as [p | p |]); destruct base; try reflexivity;
      cbn [HexString.Raw.of_pos]; rewrite IH by (simpl in Hn |- *; lia);
      reflexivity.
Qed.

Lemma hex_digits_of_pos (p : positive) :
  BigInt.hex_digits (HexString.Raw.of_pos p EmptyString) 0%N = Some (Npos p).
Proof.
  rewrite (hex_digits_of_pos_bounded (Pos.size_nat p)) by lia. reflexivity.
Qed.

Lemma hex_digits_zeros (k : nat) (s : string) :
  BigInt.hex_digits (repeat_char k "0" ++ s) 0%N = BigInt.hex_digits s 0%N.
Proof. induction k as [| k IH]; [reflexivity | exact IH]. Qed.

Lemma of_hex_positive (s : string) (p : positive) :
  BigInt.hex_digits s 0%N = Some (Npos p) -> BigInt.of_hex s = Some (Zpos p).
Proof.
  intros H. unfold BigInt.of_hex. destruct s as [| c s'].
  - discriminate H.
  - rewrite H. reflexivity.
Qed.

Lemma of_hex_zeros (k : nat) (c : ascii) (s : string) :
  BigInt.of_hex (repeat_char k "0" ++ String c s)
  = option_map Z.of_N (BigInt.hex_digits (String c s) 0%N).
Proof.
  destruct k as [| k]; [reflexivity |].
  exact (f_equal (option_map Z.of_N) (hex_digits_zeros (S k) (String c s))).
Qed.

(** What [toString(16).padStart(target, '0')] writes for a non-negative
    bigint, [BigInt('0x' + ...)] reads back. *)
Lemma of_hex_padStart (target : nat) (z : Z) :
  0 <= z ->
  BigInt.of_hex (padStart target "0" (BigInt.toString16 z)) = Some z.
Proof.
  intros Hz. unfold padStart. destruct z as [| p | p]; [| | lia].
  - cbn [BigInt.toString16]. rewrite of_hex_zeros. reflexivity.
  - apply of_hex_positive. cbn [BigInt.toString16].
    rewrite hex_digits_zeros. apply hex_digits_of_pos.
Qed.

(** A negative bigint is written with a minus sign, which [BigInt] does
    not read after the prefix. *)
Lemma of_hex_padStart_negative (target : nat) (p : positive) :
  BigInt.of_hex (padStart target "0" (BigInt.toString16 (Zneg p))) = None.
Proof.
  unfold padStart. cbn [BigInt.toString16]. rewrite of_hex_zeros.
  reflexivity.
Qed.

Lemma BigInt_of_hex_padStart (target : nat) (z : Z) :
  0 <= z ->
  BigInt_of_hex (padStart target "0" (BigInt.toString16 z)) = Ok z.
Proof.
  intros Hz. unfold BigInt_of_hex. rewrite of_hex_padStart by exact Hz.
  reflexivity.
Qed.

(** ** splitSecret and reconstructSecret *)

Lemma draw_coefficients_returns (count : nat) :
  forall (coefficients : list Z) (w : World),
  exists (coefficients' : list Z) (w' : World),
    draw_coefficients count coefficients w = Ok (coefficients', w').
Proof.
  induction count as [| count IH]; intros coefficients w.
  - exists coefficients, w. reflexivity.
  - cbn [draw_coefficients]. unfold bind at 1, randomBytes32 at 1.
    apply IH.
Qed.

Lemma splitSecret_returns (secret : Z) (n k : nat) (w : World) :
  (k <= n)%nat ->
  exists (shares : list Z) (w' : World),
    splitSecret secret n k w = Ok (shares, w') /\ length shares = n.
Proof.
  intros Hkn. unfold splitSecret.
  destruct (Nat.ltb_spec n k) as [Hlt | _]; [lia |].
  destruct (draw_coefficients_returns (k - 1) [secret] w) as (cs & w' & Hcs).
  unfold bind, ret. rewrite Hcs.
  eexists _, w'. split; [reflexivity |].
  rewrite length_map, length_seq. reflexivity.
Qed.

Lemma splitSecret_throws (secret : Z) (n k : nat) (w : World) :
  splitSecret secret n k w = Throw InvalidThreshold <-> (n < k)%nat.
Proof.
  split.
  - intros H. destruct (Nat.lt_ge_cases n k) as [Hlt | Hge]; [exact Hlt |].
    destruct (splitSecret_returns secret n k w Hge) as (l & w' & Hl & _).
    rewrite Hl in H. discriminate H.
  - intros Hlt. unfold splitSecret.
    destruct (Nat.ltb_spec n k) as [_ | Hge]; [reflexivity | lia].
Qed.

(** The two shares of a (2, 2) split, as the loops of [splitSecret] leave
    them. *)
Lemma splitSecret_2_2 (secret : Z) (w : World) :
  splitSecret secret 2 2 w
  = Ok ([raw_share secret (coefficient w) 1;
         raw_share secret (coefficient w) 2], after_draw w).
Proof. reflexivity. Qed.

Lemma splitSecret_2_2_field (secret : Z) (w : World) :
  in_field secret ->
  splitSecret secret 2 2 w
  = Ok ([line secret (coefficient w) 1; line secret (coefficient w) 2],
        after_draw w).
Proof.
  intros Hs. rewrite splitSecret_2_2.
  rewrite !evaluate_line by (try exact Hs; try apply coefficient_in_field; lia).
  reflexivity.
Qed.

Lemma lagrange_first : lagrange_products [1; 2] 2 0 = (PRIME - 2, PRIME - 1).
Proof. reflexivity. Qed.

Lemma lagrange_second : lagrange_products [1; 2] 2 1 = (PRIME - 1, 1).
Proof. reflexivity. Qed.

Lemma modInverse_minus_one : modInverse (PRIME - 1) = PRIME - 1.
Proof. reflexivity. Qed.

Lemma modInverse_one : modInverse 1 = 1.
Proof. reflexivity. Qed.

(** [reconstructSecret] on two shares: the Lagrange coefficients at 0 for
    the abscissas 1 and 2 are 2 and PRIME - 1. *)
Lemma reconstruct_two (y1 y2 : Z) :
  reconstructSecret [y1; y2]
  = Ok (normalize (Z.rem (Z.rem (0 + Z.rem (y1 * 2) PRIME) PRIME
                          + Z.rem (y2 * (PRIME - 1)) PRIME) PRIME)).
Proof.
  unfold reconstructSecret.
  cbn [length Nat.ltb Nat.leb seq map fold_left Nat.add nth].
  change (Z.of_nat 1) with 1. change (Z.of_nat 2) with 2.
  rewrite lagrange_first, lagrange_second.
  rewrite modInverse_minus_one, modInverse_one.
  replace (Z.rem ((PRIME - 2) * (PRIME - 1)) PRIME) with 2 by reflexivity.
  replace (Z.rem ((PRIME - 1) * 1) PRIME) with (PRIME - 1) by reflexivity.
  reflexivity.
Qed.

Lemma reconstruct_line (s a : Z) :
  in_field s -> reconstructSecret [line s a 1; line s a 2] = Ok s.
Proof.
  intros Hs. rewrite reconstruct_two, interpolate_line by exact Hs.
  reflexivity.
Qed.

Lemma reconstruct_accumulate (shares x_coords : list Z) (count : nat) :
  forall (indices : list nat) (secret : Z),
    - PRIME < secret < PRIME ->
    - PRIME <
      fold_left
        (fun secret i =>
           let '(numerator, denominator) :=
             lagrange_products x_coords count i in
           let lagrange := Z.rem (numerator * modInverse denominator) PRIME in
           let term := Z.rem (nth i shares 0 * lagrange) PRIME in
           Z.rem (secret + term) PRIME)
        indices secret
    < PRIME.
Proof.
  induction indices as [| i indices IH]; intros secret Hs.
  - exact Hs.
  - cbn [fold_left]. apply IH.
    destruct (lagrange_products x_coords count i) as [numerator denominator].
    apply rem_abs_lt.
Qed.

Lemma reconstructSecret_returns (shares : list Z) :
  (2 <= length shares)%nat ->
  exists v : Z, reconstructSecret shares = Ok v /\ in_field v.
Proof.
  intros Hlen. unfold reconstructSecret.
  destruct (Nat.ltb_spec (length shares) 2) as [Hlt | _]; [lia |].
  eexists. split; [reflexivity |].
  match goal with
  | |- in_field (if ?x <? 0 then _ else _) =>
      assert (Hx : - PRIME < x < PRIME)
        by (apply reconstruct_accumulate; pose proof PRIME_pos; lia);
      destruct (Z.ltb_spec x 0); unfold in_field; lia
  end.
Qed.

Lemma reconstructSecret_throws (shares : list Z) :
  reconstructSecret shares = Throw InsufficientShares
  <-> (length shares < 2)%nat.
Proof.
  split.
  - intros H. destruct (Nat.lt_ge_cases (length shares) 2) as [Hlt | Hge];
      [exact Hlt |].
    destruct (reconstructSecret_returns shares Hge) as (v & Hv & _).
    rewrite Hv in H. discriminate H.
  - intros Hlt. unfold reconstructSecret.
    destruct (Nat.ltb_spec (length shares) 2) as [_ | Hge];
      [reflexivity | lia].
Qed.

(** C1. For every secret of the field and every world (so every value of
    the coefficient [splitSecret] draws), [splitSecret s 2 2] returns the
    values at 1 and 2 of the line through [s] with that coefficient, and
    [reconstructSecret] on these two shares returns [s]. *)
Theorem split_reconstruct_2_2 (s : Z) (w : World) :
  0 <= s < PRIME ->
  exists (y1 y2 : Z) (w' : World),
    splitSecret s 2 2 w = Ok ([y1; y2], w') /\
    y1 = (s + coefficient w * 1) mod PRIME /\
    y2 = (s + coefficient w * 2) mod PRIME /\
    0 <= coefficient w < PRIME /\
    reconstructSecret [y1; y2] = Ok s.
Proof.
  intros Hs.
  exists (line s (coefficient w) 1), (line s (coefficient w) 2), (after_draw w).
  split; [apply splitSecret_2_2_field; exact Hs |].
  split; [reflexivity |]. split; [reflexivity |].
  split; [apply coefficient_in_field |].
  apply reconstruct_line. exact Hs.
Qed.

Lemma split_reconstruct_2_2_witness :
  exists (y1 y2 : Z) (w' : World),
    splitSecret 42 2 2 (world_of [7]) = Ok ([y1; y2], w') /\
    y1 = (42 + coefficient (world_of [7]) * 1) mod PRIME /\
    y2 = (42 + coefficient (world_of [7]) * 2) mod PRIME /\
    0 <= coefficient (world_of [7]) < PRIME /\
    reconstructSecret [y1; y2] = Ok 42.
Proof.
  apply (split_reconstruct_2_2 42 (world_of [7])).
  split; [lia | reflexivity].
Defined.

(** C4. The modulus of the module is 2^255 - 19, the prime of Curve25519:
    it is not the secp256k1 field prime 2^256 - 2^32 - 977 that the
    comment next to it names.  A secret equal to 2^255 - 19, a field
    element for secp256k1, is split into the shares of 0 and comes back
    as 0. *)
Theorem PRIME_not_secp256k1 :
  PRIME = 2 ^ 255 - 19 /\
  PRIME < secp256k1_prime /\
  splitSecret (2 ^ 255 - 19) 2 2 (world_of [0]) = Ok ([0; 0], after_draw (world_of [0])) /\
  reconstructSecret [0; 0] = Ok 0.
Proof.
  split; [reflexivity |]. split; [reflexivity |].
  split; reflexivity.
Qed.

(** C8. [splitSecret] throws its threshold error exactly when k > n and
    otherwise returns n shares; [reconstructSecret] throws its
    insufficient-shares error exactly when it is given fewer than two
    shares and otherwise returns a field element. *)
Theorem split_reconstruct_errors :
  (forall (secret : Z) (n k : nat) (w : World),
      (splitSecret secret n k w = Throw InvalidThreshold <-> (k > n)%nat) /\
      ((k <= n)%nat ->
       exists (shares : list Z) (w' : World),
         splitSecret secret n k w = Ok (shares, w') /\ length shares = n)) /\
  (forall shares : list Z,
      (reconstructSecret shares = Throw InsufficientShares
       <-> (length shares < 2)%nat) /\
      ((2 <= length shares)%nat ->
       exists v : Z, reconstructSecret shares = Ok v /\ 0 <= v < PRIME)).
Proof.
  split.
  - intros secret n k w. split.
    + apply splitSecret_throws.
    + apply splitSecret_returns.
  - intros shares. split.
    + apply reconstructSecret_throws.
    + apply reconstructSecret_returns.
Qed.

Lemma split_reconstruct_errors_witness :
  (exists (shares : list Z) (w' : World),
      splitSecret 5 3 2 (world_of [1]) = Ok (shares, w') /\
      length shares = 3%nat) /\
  splitSecret 5 2 3 (world_of [1]) = Throw InvalidThreshold /\
  (exists v : Z, reconstructSecret [4; 5] = Ok v /\ 0 <= v < PRIME) /\
  reconstructSecret [4] = Throw InsufficientShares.
Proof.
  destruct split_reconstruct_errors as [Hs Hr].
  split; [apply (Hs 5 3%nat 2%nat (world_of [1])); lia |].
  split; [apply (Hs 5 2%nat 3%nat (world_of [1])); lia |].
  split; [apply (Hr [4; 5]); simpl; lia |].
  apply (Hr [4]). simpl. lia.
Defined.

(** ** encode and decode *)

Lemma digest_int_nonneg (s : string) : 0 <= SHA256.digest_int s.
Proof.
  unfold SHA256.digest_int.
  assert (H : forall (l : list Z) (acc : Z),
             0 <= acc ->
             0 <= fold_left (fun acc w => acc * 2 ^ 32 + SHA256.w32 w) l acc).
  { induction l as [| x l IH]; intros acc Hacc; [exact Hacc |].
    cbn [fold_left]. apply IH. unfold SHA256.w32.
    pose proof (Z.mod_pos_bound x (2 ^ 32) eq_refl). lia. }
  apply H. lia.
Qed.

(** [encode] on a number: the shares of a (2, 2) split of the number
    itself, written on 64 hexadecimal digits. *)
Lemma encode_number (n : Z) (f : string) (w : World) :
  encode (Num (Int n)) f w
  = Ok (share_record (uuids w (issued w))
          (raw_share n (coefficient w) 1) (raw_share n (coefficient w) 2)
          f (now w),
        after_encode w (raw_share n (coefficient w) 1)
          (raw_share n (coefficient w) 2)).
Proof. reflexivity. Qed.

(** [encode] on a string: the same on the digest reduced modulo PRIME. *)
Lemma encode_string (s : string) (f : string) (w : World) :
  encode (Str s) f w
  = encode (Num (Int (SHA256.digest_int s mod PRIME))) f w.
Proof.
  unfold encode. cbv zeta. unfold bind at 2. unfold bind at 2.
  unfold SHA256.digest_hex.
  rewrite BigInt_of_hex_padStart by apply digest_int_nonneg.
  cbn [lift ret BigInt_of_number].
  change 57896044618658097711785492504343953926634992332820282019728792003956564819949
    with PRIME.
  rewrite rem_field by apply digest_int_nonneg.
  reflexivity.
Qed.

Lemma share_record_valid (i f : string) (t s a : Z) :
  in_field s -> in_field a ->
  valid_for (share_record i (raw_share s a 1) (raw_share s a 2) f t) s.
Proof.
  intros Hs Ha. split; [exact Hs |].
  rewrite !evaluate_line by (try assumption; lia).
  exists (line s a 1), (line s a 2), a.
  cbn [share_record shares party1 party2].
  pose proof (mod_in_field (s + a * 1)) as H1.
  pose proof (mod_in_field (s + a * 2)) as H2.
  repeat split; try apply Ha; try apply H1; try apply H2;
    apply of_hex_padStart; unfold line; unfold in_field in *; lia.
Qed.

Lemma encode_number_valid (n : Z) (f : string) (w : World) :
  in_field n ->
  exists (r : SecureValue) (w' : World),
    encode (Num (Int n)) f w = Ok (r, w') /\ valid_for r n.
Proof.
  intros Hn. rewrite encode_number. eexists _, _. split; [reflexivity |].
  apply share_record_valid; [exact Hn | apply coefficient_in_field].
Qed.

Lemma encode_string_valid (s f : string) (w : World) :
  exists (r : SecureValue) (w' : World),
    encode (Str s) f w = Ok (r, w') /\
    valid_for r (SHA256.digest_int s mod PRIME).
Proof.
  rewrite encode_string. apply encode_number_valid, mod_in_field.
Qed.

(** [decode] on a valid record: the number nearest to its secret. *)
Lemma decode_valid (r : SecureValue) (s : Z) :
  valid_for r s -> decode r = Ok (Num (Number_of_bigint s)).
Proof.
  intros (Hs & y1 & y2 & a & Hp1 & Hp2 & _ & _ & _ & -> & ->).
  unfold decode, BigInt_of_hex. rewrite Hp1, Hp2.
  cbn [bind_result]. rewrite reconstruct_line by exact Hs.
  reflexivity.
Qed.

Lemma decode_encode_number_eq (n : Z) (f : string) (w : World) :
  in_field n ->
  decode_encode (Num (Int n)) f w = Ok (Num (Number_of_bigint n)).
Proof.
  intros Hn. unfold decode_encode.
  destruct (encode_number_valid n f w Hn) as (r & w' & Hr & Hv).
  rewrite Hr. apply decode_valid, Hv.
Qed.

Lemma decode_encode_string_eq (s f : string) (w : World) :
  decode_encode (Str s) f w
  = Ok (Num (Number_of_bigint (SHA256.digest_int s mod PRIME))).
Proof.
  unfold decode_encode. rewrite encode_string.
  apply (decode_encode_number_eq _ f w), mod_in_field.
Qed.

(** [Number] keeps every non-negative integer below 2^53. *)
Lemma Number_of_small (n : Z) :
  0 <= n < 2 ^ 53 -> Number_of_bigint n = Int n.
Proof.
  intros Hn. unfold Number_of_bigint, round53.
  rewrite Z.abs_eq by lia.
  destruct (Z.ltb_spec n (2 ^ 53)) as [_ | Hge]; [| lia].
  f_equal. destruct (Z.eq_dec n 0) as [-> | Hne]; [reflexivity |].
  rewrite Z.sgn_pos by lia. lia.
Qed.

(** [encode] leaves each share in the map of its party, under the
    identifier of the record. *)
Lemma encode_stores_shares (n : Z) (f : string) (w : World) :
  exists (r : SecureValue) (w' : World),
    encode (Num (Int n)) f w = Ok (r, w') /\
    party1Shares w' !! (id r ++ ":0")%string
    = Some (raw_share n (coefficient w) 1) /\
    party2Shares w' !! (id r ++ ":1")%string
    = Some (raw_share n (coefficient w) 2).
Proof.
  rewrite encode_number. eexists _, _. split; [reflexivity |].
  cbn [share_record id after_encode party1Shares party2Shares].
  split; apply lookup_insert_eq.
Qed.

(** C5 as stated fails on a negative number: [encode] shares -1 without
    reducing it, so with the coefficient 5 the shares 4 and 9 decode to
    PRIME - 1, which [Number] rounds to 2^255, and with the coefficient 0
    both shares are -1, written with a minus sign that [decode] cannot
    read. *)
Lemma decode_encode_negative :
  Z.abs (-1) < PRIME /\
  decode_encode (Num (Int (-1))) "f" (world_of [5]) = Ok (Num (Int (2 ^ 255))) /\
  decode_encode (Num (Int (-1))) "f" (world_of [0]) = Throw InvalidArgument /\
  decode_encode (Num (Int (-1))) "f" (world_of [5]) <> Ok (Num (Int (-1))).
Proof.
  split; [reflexivity |]. split; [reflexivity |]. split; [reflexivity |].
  vm_compute. discriminate.
Qed.

(** C5, amended. For every integer n of [0, PRIME) that is a number (the
    conversion to a double keeps it, as it does below 2^53) and every
    world, [decode (encode n f)] is n. *)
Theorem decode_encode_number (n : Z) (f : string) (w : World) :
  0 <= n < PRIME ->
  Number_of_bigint n = Int n ->
  decode_encode (Num (Int n)) f w = Ok (Num (Int n)).
Proof.
  intros Hn Hdouble. rewrite decode_encode_number_eq by exact Hn.
  rewrite Hdouble. reflexivity.
Qed.

Lemma decode_encode_number_witness :
  decode_encode (Num (Int 35)) "age" (world_of [123456789]) = Ok (Num (Int 35)).
Proof.
  apply (decode_encode_number 35 "age" (world_of [123456789])).
  - split; [lia | reflexivity].
  - reflexivity.
Defined.

(** C6, on the code. [decode (encode "AB12CD34" f)] is the double nearest
    to the digest reduced modulo PRIME, which differs from that integer:
    only its 53 leading bits survive [Number]. *)
Theorem decode_encode_string_rounds :
  SHA256.digest_int "AB12CD34" mod PRIME
  = 46383318481657724930234850934980960146006438523890288763363973865256437811931 /\
  decode_encode (Str "AB12CD34") "verificationCode" (world_of [7])
  = Ok (Num (Int 46383318481657725478808662934799211240332906317687764677562845035710809899008)) /\
  decode_encode (Str "AB12CD34") "verificationCode" (world_of [7])
  <> Ok (Num (Int (SHA256.digest_int "AB12CD34" mod PRIME))).
Proof.
  assert (H : SHA256.digest_int "AB12CD34" mod PRIME
              = 46383318481657724930234850934980960146006438523890288763363973865256437811931)
    by (vm_compute; reflexivity).
  split; [exact H |].
  rewrite decode_encode_string_eq, H.
  split; [vm_compute; reflexivity | vm_compute; discriminate].
Qed.

(** C7 as stated fails: on no record [secureAnd] returns a record. *)
Lemma secureAnd_empty_returns :
  secureAnd [] (world_of [7])
  = Ok (share_record "0" 8 15 "combined_result" 1700000000000,
        after_encode (world_of [7]) 8 15) /\
  secureAnd [] (world_of [7]) <> Throw InvalidArgument.
Proof. split; [reflexivity | discriminate]. Qed.

(** C7, amended. On an empty sequence [secureAnd] throws nothing: the
    loop does not run, and the record it returns decodes to 1. *)
Theorem secureAnd_empty (w : World) :
  exists (r : SecureValue) (w' : World),
    secureAnd [] w = Ok (r, w') /\ decode r = Ok (Num (Int 1)).
Proof.
  destruct (encode_number_valid 1 "combined_result" w) as (r & w' & Hr & Hv);
    [split; [lia | reflexivity] |].
  exists r, w'. split; [exact Hr |].
  rewrite (decode_valid r 1 Hv). reflexivity.
Qed.

(** ** secureEquality, secureAnd and secureAggregate *)

Lemma encodeBoolean_valid (b : bool) (f : string) (w : World) :
  exists (r : SecureValue) (w' : World),
    encodeBoolean b f w = Ok (r, w') /\ valid_for r (bit b).
Proof.
  apply encode_number_valid.
  destruct b; unfold bit, in_field; split; (lia || reflexivity).
Qed.

Lemma decode_bit (r : SecureValue) (b : bool) :
  valid_for r (bit b) -> decode r = Ok (Num (Int (bit b))).
Proof.
  intros Hv. rewrite (decode_valid r (bit b) Hv). destruct b; reflexivity.
Qed.

Lemma encodeBoolean_decodes (b : bool) (f : string) (w w' : World)
      (r : SecureValue) :
  encodeBoolean b f w = Ok (r, w') ->
  valid_for r (bit b) /\ decode r = Ok (Num (Int (bit b))).
Proof.
  intros H. destruct (encodeBoolean_valid b f w) as (r0 & w0 & H0 & Hv).
  rewrite H in H0. injection H0 as <- <-.
  split; [exact Hv | apply decode_bit, Hv].
Qed.

(** Whatever [secureEquality] returns was made by [encodeBoolean]. *)
Lemma secureEquality_inv (sv1 sv2 r : SecureValue) (w w' : World) :
  secureEquality sv1 sv2 w = Ok (r, w') ->
  exists (b : bool) (f : string), encodeBoolean b f w = Ok (r, w').
Proof.
  unfold secureEquality, bind, lift.
  destruct (BigInt_of_hex (party1 (shares sv1))); [| discriminate].
  destruct (BigInt_of_hex (party2 (shares sv1))); [| discriminate].
  destruct (BigInt_of_hex (party1 (shares sv2))); [| discriminate].
  destruct (BigInt_of_hex (party2 (shares sv2))); [| discriminate].
  intros H. eexists _, _. exact H.
Qed.

(** Whatever [secureAnd] returns was made by [encodeBoolean]. *)
Lemma secureAnd_inv (l : list SecureValue) (r : SecureValue) (w w' : World) :
  secureAnd l w = Ok (r, w') ->
  exists (b : bool) (w1 : World),
    encodeBoolean b "combined_result" w1 = Ok (r, w').
Proof.
  unfold secureAnd, bind.
  destruct (and_loop l 1 w) as [[res w1] |]; [| discriminate].
  intros H. eexists _, w1. exact H.
Qed.

(** Two field elements differ by a multiple of PRIME only when equal. *)
Lemma diff_zero (a b : Z) :
  in_field a -> in_field b ->
  (Z.rem (a - b + PRIME) PRIME =? 0) = (a =? b).
Proof.
  unfold in_field. intros Ha Hb. pose proof PRIME_pos as HP.
  rewrite rem_field by lia.
  destruct (Z.eqb_spec a b) as [-> | Hne].
  - replace (b - b + PRIME) with (0 + 1 * PRIME) by ring.
    rewrite Z.mod_add by lia. reflexivity.
  - apply Z.eqb_neq. destruct (Z.lt_ge_cases a b).
    + rewrite Z.mod_small by lia. lia.
    + replace (a - b + PRIME) with (a - b + 1 * PRIME) by ring.
      rewrite Z.mod_add, Z.mod_small by lia. lia.
Qed.

Lemma valid_for_shares (r : SecureValue) (s : Z) :
  valid_for r s ->
  exists y1 y2 : Z,
    BigInt.of_hex (party1 (shares r)) = Some y1 /\
    BigInt.of_hex (party2 (shares r)) = Some y2 /\
    in_field y1 /\ in_field y2.
Proof.
  intros (_ & y1 & y2 & a & H1 & H2 & F1 & F2 & _).
  exists y1, y2. auto.
Qed.

(** On valid records [secureEquality] returns, and what it returns is a
    valid record of the bit "the two records hold the same shares". *)
Lemma secureEquality_valid (sv1 sv2 : SecureValue) (s1 s2 : Z) (w : World) :
  valid_for sv1 s1 -> valid_for sv2 s2 ->
  exists (r : SecureValue) (w' : World),
    secureEquality sv1 sv2 w = Ok (r, w') /\
    valid_for r (bit (same_shares sv1 sv2)).
Proof.
  intros Hv1 Hv2.
  destruct (valid_for_shares _ _ Hv1) as (a1 & a2 & Ha1 & Ha2 & Fa1 & Fa2).
  destruct (valid_for_shares _ _ Hv2) as (b1 & b2 & Hb1 & Hb2 & Fb1 & Fb2).
  unfold secureEquality, bind, lift, BigInt_of_hex, same_shares, shares_of.
  rewrite Ha1, Ha2, Hb1, Hb2. cbv zeta.
  change 57896044618658097711785492504343953926634992332820282019728792003956564819949
    with PRIME.
  rewrite !diff_zero by assumption.
  destruct ((a1 =? b1) && (a2 =? b2)); apply encodeBoolean_valid.
Qed.

(** On valid records the loop of [secureAnd] ends with the conjunction
    of its starting bit and of "every record decodes to 1", and leaves
    the world as it was. *)
Lemma and_loop_valid (l : list SecureValue) :
  Forall (fun sv => exists s, valid_for sv s) l ->
  forall (c : bool) (w : World),
    and_loop l (bit c) w = Ok (bit (c && all_ones l), w).
Proof.
  induction 1 as [| sv l (s & Hs) _ IH]; intros c w.
  - cbn [and_loop all_ones forallb]. rewrite andb_true_r. reflexivity.
  - cbn [and_loop all_ones forallb]. unfold bind at 1, lift at 1.
    rewrite (decode_valid sv s Hs).
    fold (all_ones l).
    replace (if (bit c =? 1) && is_one (Num (Number_of_bigint s))
             then 1 else 0)
      with (bit (c && is_one (Num (Number_of_bigint s))))
      by (destruct c, (is_one (Num (Number_of_bigint s))); reflexivity).
    rewrite IH, andb_assoc. reflexivity.
Qed.

Lemma secureAnd_valid (l : list SecureValue) (w : World) :
  Forall (fun sv => exists s, valid_for sv s) l ->
  exists (r : SecureValue) (w' : World),
    secureAnd l w = Ok (r, w') /\ valid_for r (bit (all_ones l)).
Proof.
  intros Hl. unfold secureAnd, bind.
  change 1 with (bit true) at 1. rewrite (and_loop_valid l Hl true w).
  cbn [andb].
  replace (bit (all_ones l) =? 1) with (all_ones l)
    by (destruct (all_ones l); reflexivity).
  apply encodeBoolean_valid.
Qed.

Lemma shares_of_share_record (i f : string) (t y1 y2 : Z) :
  0 <= y1 -> 0 <= y2 -> shares_of (share_record i y1 y2 f t) = Some (y1, y2).
Proof.
  intros H1 H2. unfold shares_of. cbn [share_record shares party1 party2].
  rewrite !of_hex_padStart by assumption. reflexivity.
Qed.

(** A line over the field is known by its values at 1 and 2. *)
Lemma line_injective (s a s' a' : Z) :
  in_field s -> in_field a -> in_field s' -> in_field a' ->
  line s a 1 = line s' a' 1 -> line s a 2 = line s' a' 2 ->
  s = s' /\ a = a'.
Proof.
  intros Hs Ha Hs' Ha' H1 H2.
  assert (Hss : s = s').
  { pose proof (reconstruct_line s a Hs) as E.
    rewrite H1, H2, (reconstruct_line s' a' Hs') in E.
    injection E as E. symmetry. exact E. }
  subst s'. split; [reflexivity |].
  unfold line, in_field in *. pose proof PRIME_pos as HP.
  assert (Hd : (a - a') mod PRIME = 0).
  { replace (a - a') with ((s + a * 1) - (s + a' * 1)) by ring.
    rewrite Zminus_mod, H1, Z.sub_diag. reflexivity. }
  destruct (Z.lt_ge_cases a a') as [Hlt | Hge].
  - replace (a - a') with (a - a' + PRIME + (-1) * PRIME) in Hd by ring.
    rewrite Z.mod_add, Z.mod_small in Hd by lia. lia.
  - rewrite Z.mod_small in Hd by lia. lia.
Qed.

(** The records of two [encode] calls hold the same shares exactly when
    the two secrets are equal and the two coefficients drawn are equal. *)
Lemma same_shares_encoded (i j f g : string) (t u x a y b : Z) :
  in_field x -> in_field a -> in_field y -> in_field b ->
  same_shares (share_record i (raw_share x a 1) (raw_share x a 2) f t)
              (share_record j (raw_share y b 1) (raw_share y b 2) g u)
  = (x =? y) && (a =? b).
Proof.
  intros Hx Ha Hy Hb. unfold same_shares.
  rewrite !evaluate_line by (try assumption; lia).
  pose proof (mod_in_field (x + a * 1)). pose proof (mod_in_field (x + a * 2)).
  pose proof (mod_in_field (y + b * 1)). pose proof (mod_in_field (y + b * 2)).
  rewrite !shares_of_share_record by (unfold line, in_field in *; lia).
  destruct (Z.eqb_spec (line x a 1) (line y b 1)) as [E1 | N1];
    destruct (Z.eqb_spec (line x a 2) (line y b 2)) as [E2 | N2];
    cbn [andb].
  - destruct (line_injective x a y b Hx Ha Hy Hb E1 E2) as [-> ->].
    rewrite !Z.eqb_refl. reflexivity.
  - symmetry. apply andb_false_iff.
    destruct (Z.eqb_spec x y) as [-> |]; [| left; reflexivity].
    destruct (Z.eqb_spec a b) as [-> |]; [| right; reflexivity].
    contradiction N2. reflexivity.
  - symmetry. apply andb_false_iff.
    destruct (Z.eqb_spec x y) as [-> |]; [| left; reflexivity].
    destruct (Z.eqb_spec a b) as [-> |]; [| right; reflexivity].
    contradiction N1. reflexivity.
  - symmetry. apply andb_false_iff.
    destruct (Z.eqb_spec x y) as [-> |]; [| left; reflexivity].
    destruct (Z.eqb_spec a b) as [-> |]; [| right; reflexivity].
    contradiction N1. reflexivity.
Qed.

(** What [secureEquality] of two encoded numbers decodes to: 1 exactly
    when the numbers are equal and the two calls of [encode] drew the same
    coefficient. *)
Lemma decode_equality_number (x y : Z) (f : string) (w : World) :
  in_field x -> in_field y ->
  decode_equality (Num (Int x)) (Num (Int y)) f w
  = Ok (Num (Int (bit ((x =? y)
                       && (coefficient w =? coefficient (after_draw w)))))).
Proof.
  intros Hx Hy. unfold decode_equality. unfold bind at 1.
  rewrite encode_number. unfold bind at 1. rewrite encode_number.
  set (a := coefficient w).
  set (w1 := after_encode w _ _).
  change (coefficient w1) with (coefficient (after_draw w)).
  set (b := coefficient (after_draw w)).
  assert (Ha : in_field a) by apply coefficient_in_field.
  assert (Hb : in_field b) by apply coefficient_in_field.
  match goal with
  | |- context [secureEquality ?r1 ?r2 ?w2] =>
      destruct (secureEquality_valid r1 r2 x y w2) as (r & w' & Hr & Hv);
        [apply share_record_valid; assumption
        | apply share_record_valid; assumption |];
        rewrite Hr
  end.
  rewrite same_shares_encoded in Hv by assumption.
  apply decode_bit, Hv.
Qed.

(** Two encodings of different numbers never pass [secureEquality]. *)
Lemma decode_equality_distinct (x y : Z) (f : string) (w : World) :
  in_field x -> in_field y -> x <> y ->
  decode_equality (Num (Int x)) (Num (Int y)) f w = Ok (Num (Int 0)).
Proof.
  intros Hx Hy Hne. rewrite decode_equality_number by assumption.
  apply Z.eqb_neq in Hne. rewrite Hne. reflexivity.
Qed.

(** C2, on the code. With the coefficients 1 and 2 drawn by the two calls
    of [encode], [secureEquality] of two encodings of 5 decodes to 0: it
    compares the shares, which differ, not the secrets.  (It decodes to 1
    when both calls draw the same coefficient.) *)
Theorem equality_of_equal_numbers_decodes_to_0 :
  decode_equality (Num (Int 5)) (Num (Int 5)) "f" (world_of [1; 2])
  = Ok (Num (Int 0)) /\
  decode_equality (Num (Int 5)) (Num (Int 5)) "f" (world_of [1; 1])
  = Ok (Num (Int 1)).
Proof.
  split.
  - rewrite decode_equality_number by (split; [lia | reflexivity]).
    reflexivity.
  - rewrite decode_equality_number by (split; [lia | reflexivity]).
    reflexivity.
Qed.

Lemma sum_loop_total (l : list SecureValue) :
  forall (t sum : Z) (w : World),
    total_shares l = Some t -> sum_loop l sum w = Ok (sum + t, w).
Proof.
  induction l as [| sv l IH]; intros t sum w Ht.
  - injection Ht as <-. rewrite Z.add_0_r. reflexivity.
  - cbn [total_shares] in Ht. unfold shares_of in Ht.
    cbn [sum_loop]. unfold bind, lift, BigInt_of_hex.
    destruct (BigInt.of_hex (party1 (shares sv))) as [y1 |]; [| discriminate].
    destruct (BigInt.of_hex (party2 (shares sv))) as [y2 |]; [| discriminate].
    destruct (total_shares l) as [t' |]; [| discriminate].
    injection Ht as <-.
    rewrite (IH t' (sum + y1 + y2) w eq_refl). f_equal. f_equal. ring.
Qed.

(** The record of [secureAggregate]: the plain sum of all the shares,
    without reduction, cut in two halves. *)
Lemma secureAggregate_record (l : list SecureValue) (t : Z) (w : World) :
  total_shares l = Some t ->
  secureAggregate l w
  = Ok (share_record (uuids w (issued w)) (Z.quot t 2) (t - Z.quot t 2)
          "aggregated_sum" (now w),
        after_aggregate w (Z.quot t 2) (t - Z.quot t 2)).
Proof.
  intros Ht. unfold secureAggregate. unfold bind at 1.
  rewrite (sum_loop_total l t 0 w Ht). reflexivity.
Qed.

Lemma total_shares_valid (l : list SecureValue) :
  Forall (fun sv => exists s, valid_for sv s) l ->
  exists t : Z, total_shares l = Some t /\ 0 <= t.
Proof.
  induction 1 as [| sv l (s & Hs) _ (t & Ht & Hpos)].
  - exists 0. split; [reflexivity | lia].
  - destruct (valid_for_shares sv s Hs) as (y1 & y2 & H1 & H2 & F1 & F2).
    exists (y1 + y2 + t). cbn [total_shares]. unfold shares_of.
    rewrite H1, H2, Ht. unfold in_field in *. split; [reflexivity | lia].
Qed.

(** On valid records [secureAggregate] returns the two halves of the sum
    of all their shares: non-negative integers, the second at most one
    above the first. *)
Lemma secureAggregate_valid (l : list SecureValue) (w : World) :
  Forall (fun sv => exists s, valid_for sv s) l ->
  exists (r : SecureValue) (w' : World) (t : Z),
    total_shares l = Some t /\
    secureAggregate l w = Ok (r, w') /\
    shares_of r = Some (Z.quot t 2, t - Z.quot t 2) /\
    0 <= Z.quot t 2 <= t - Z.quot t 2.
Proof.
  intros Hl. destruct (total_shares_valid l Hl) as (t & Ht & Hpos).
  pose proof (secureAggregate_record l t w Ht) as Hr.
  assert (Hq : 0 <= Z.quot t 2 <= t - Z.quot t 2).
  { rewrite Z.quot_div_nonneg by lia.
    pose proof (Z.div_mod t 2). pose proof (Z.mod_pos_bound t 2). lia. }
  eexists _, _, t. split; [exact Ht |]. split; [exact Hr |].
  split; [| exact Hq].
  apply shares_of_share_record; lia.
Qed.

(** C3, on the code. With the coefficient 1 drawn by both calls of
    [encode], the shares of 3 are 4 and 5, those of 4 are 5 and 6; their
    plain sum 20 is cut into 10 and 10, and the record decodes to 10, not
    to 7.  (With the coefficient 0 drawn twice it decodes to 7.) *)
Theorem aggregate_3_4_decodes_to_10 :
  returned (aggregate_pair (Num (Int 3)) (Num (Int 4)) "a" (world_of [1; 1]))
  = Some (share_record "2" 10 10 "aggregated_sum" 1700000000000) /\
  decode (share_record "2" 10 10 "aggregated_sum" 1700000000000)
  = Ok (Num (Int 10)) /\
  returned (aggregate_pair (Num (Int 3)) (Num (Int 4)) "a" (world_of [0; 0]))
  = Some (share_record "2" 7 7 "aggregated_sum" 1700000000000) /\
  decode (share_record "2" 7 7 "aggregated_sum" 1700000000000)
  = Ok (Num (Int 7)).
Proof. repeat split; reflexivity. Qed.

(** C9 as stated fails for [secureAggregate]: two valid records of the
    secret 0, both with the shares PRIME - 1 and PRIME - 2, are summed
    into the shares 2 PRIME - 3 and 2 PRIME - 3, which are not field
    elements, so the record is valid for no secret. *)
Lemma aggregate_leaves_field :
  valid_for (share_record "0" (PRIME - 1) (PRIME - 2) "a" 0) 0 /\
  secureAggregate
    [share_record "0" (PRIME - 1) (PRIME - 2) "a" 0;
     share_record "0" (PRIME - 1) (PRIME - 2) "a" 0]
    (world_of [])
  = Ok (share_record "0" (2 * PRIME - 3) (2 * PRIME - 3)
          "aggregated_sum" 1700000000000,
        after_aggregate (world_of []) (2 * PRIME - 3) (2 * PRIME - 3)) /\
  shares_of (share_record "0" (2 * PRIME - 3) (2 * PRIME - 3)
               "aggregated_sum" 1700000000000)
  = Some (2 * PRIME - 3, 2 * PRIME - 3) /\
  PRIME <= 2 * PRIME - 3 /\
  (forall s : Z,
      ~ valid_for (share_record "0" (2 * PRIME - 3) (2 * PRIME - 3)
                     "aggregated_sum" 1700000000000) s).
Proof.
  assert (Hshares :
            shares_of (share_record "0" (2 * PRIME - 3) (2 * PRIME - 3)
                         "aggregated_sum" 1700000000000)
            = Some (2 * PRIME - 3, 2 * PRIME - 3)) by reflexivity.
  split.
  - split; [split; [lia | reflexivity] |].
    exists (PRIME - 1), (PRIME - 2), (PRIME - 1).
    repeat split; try reflexivity; discriminate.
  - split; [reflexivity |]. split; [exact Hshares |].
    split; [discriminate |].
    intros s Hv. destruct (valid_for_shares _ _ Hv) as (y1 & y2 & H1 & _ & F1 & _).
    unfold shares_of in Hshares. rewrite H1 in Hshares.
    destruct (BigInt.of_hex _); [| discriminate].
    injection Hshares as -> _. unfold in_field in F1.
    assert (PRIME <= 2 * PRIME - 3) by discriminate. lia.
Qed.

(** C9, amended. The records of [encode] (on a string, or on an integer
    of the field), of [secureEquality] and of [secureAnd] (on valid
    records) are valid: both shares are field elements, the values at 1
    and 2 of a line whose constant term is the secret of the record: the
    digest modulo PRIME, the integer, or a bit.  The record of
    [secureAggregate] on valid records holds the two halves of the plain
    sum of their shares, non-negative integers without a bound. *)
Theorem encoded_records_valid (w : World) (f : string) :
  (forall s : string,
      exists (r : SecureValue) (w' : World),
        encode (Str s) f w = Ok (r, w') /\
        valid_for r (SHA256.digest_int s mod PRIME)) /\
  (forall n : Z,
      0 <= n < PRIME ->
      exists (r : SecureValue) (w' : World),
        encode (Num (Int n)) f w = Ok (r, w') /\ valid_for r n) /\
  (forall (sv1 sv2 : SecureValue) (s1 s2 : Z),
      valid_for sv1 s1 -> valid_for sv2 s2 ->
      exists (r : SecureValue) (w' : World),
        secureEquality sv1 sv2 w = Ok (r, w') /\
        valid_for r (bit (same_shares sv1 sv2))) /\
  (forall l : list SecureValue,
      Forall (fun sv => exists s, valid_for sv s) l ->
      exists (r : SecureValue) (w' : World),
        secureAnd l w = Ok (r, w') /\ valid_for r (bit (all_ones l))) /\
  (forall l : list SecureValue,
      Forall (fun sv => exists s, valid_for sv s) l ->
      exists (r : SecureValue) (w' : World) (t : Z),
        total_shares l = Some t /\
        secureAggregate l w = Ok (r, w') /\
        shares_of r = Some (Z.quot t 2, t - Z.quot t 2) /\
        0 <= Z.quot t 2 <= t - Z.quot t 2).
Proof.
  split; [intros s; apply encode_string_valid |].
  split; [intros n Hn; apply encode_number_valid; exact Hn |].
  split; [intros sv1 sv2 s1 s2; apply secureEquality_valid |].
  split; [intros l; apply secureAnd_valid |].
  intros l; apply secureAggregate_valid.
Qed.

Lemma encoded_records_valid_witness :
  (exists (r : SecureValue) (w' : World),
      encode (Num (Int 35)) "age" (world_of [9]) = Ok (r, w') /\
      valid_for r 35) /\
  (exists (r : SecureValue) (w' : World),
      secureEquality (share_record "0" 2 3 "f" 0) (share_record "1" 4 7 "g" 0)
        (world_of [9]) = Ok (r, w') /\
      valid_for r
        (bit (same_shares (share_record "0" 2 3 "f" 0)
                          (share_record "1" 4 7 "g" 0)))) /\
  (exists (r : SecureValue) (w' : World),
      secureAnd [share_record "0" 2 3 "f" 0; share_record "1" 4 7 "g" 0]
        (world_of [9]) = Ok (r, w') /\
      valid_for r
        (bit (all_ones [share_record "0" 2 3 "f" 0;
                        share_record "1" 4 7 "g" 0]))) /\
  (exists (r : SecureValue) (w' : World) (t : Z),
      total_shares [share_record "0" 2 3 "f" 0; share_record "1" 4 7 "g" 0]
      = Some t /\
      secureAggregate [share_record "0" 2 3 "f" 0; share_record "1" 4 7 "g" 0]
        (world_of [9]) = Ok (r, w') /\
      shares_of r = Some (Z.quot t 2, t - Z.quot t 2) /\
      0 <= Z.quot t 2 <= t - Z.quot t 2).
Proof.
  assert (H1 : valid_for (share_record "0" 2 3 "f" 0) 1).
  { split; [split; [lia | reflexivity] |].
    exists 2, 3, 1. repeat split; try reflexivity; discriminate. }
  assert (H2 : valid_for (share_record "1" 4 7 "g" 0) 1).
  { split; [split; [lia | reflexivity] |].
    exists 4, 7, 3. repeat split; try reflexivity; discriminate. }
  destruct (encoded_records_valid (world_of [9]) "age")
    as (_ & Hn & He & Ha & Hg).
  split; [apply Hn; split; [lia | reflexivity] |].
  split; [apply (He _ _ 1 1 H1 H2) |].
  split; [apply Ha | apply Hg];
    (constructor; [exists 1; exact H1 |
                   constructor; [exists 1; exact H2 | constructor]]).
Defined.

(** C10. Whatever the inputs, a record that [secureEquality] or
    [secureAnd] returns decodes to the number 0 or to the number 1. *)
Theorem boolean_records_decode_to_bit (w : World) :
  (forall (sv1 sv2 r : SecureValue) (w' : World),
      secureEquality sv1 sv2 w = Ok (r, w') ->
      decode r = Ok (Num (Int 0)) \/ decode r = Ok (Num (Int 1))) /\
  (forall (l : list SecureValue) (r : SecureValue) (w' : World),
      secureAnd l w = Ok (r, w') ->
      decode r = Ok (Num (Int 0)) \/ decode r = Ok (Num (Int 1))).
Proof.
  split.
  - intros sv1 sv2 r w' H.
    destruct (secureEquality_inv _ _ _ _ _ H) as (b & f & Hb).
    destruct (encodeBoolean_decodes _ _ _ _ _ Hb) as [_ Hd].
    destruct b; [right | left]; exact Hd.
  - intros l r w' H.
    destruct (secureAnd_inv _ _ _ _ H) as (b & w1 & Hb).
    destruct (encodeBoolean_decodes _ _ _ _ _ Hb) as [_ Hd].
    destruct b; [right | left]; exact Hd.
Qed.

Lemma boolean_records_decode_to_bit_witness :
  (decode (share_record "0" 9 18 "f_eq_g" 1700000000000) = Ok (Num (Int 0)) \/
   decode (share_record "0" 9 18 "f_eq_g" 1700000000000) = Ok (Num (Int 1))) /\
  (decode (share_record "0" 10 19 "combined_result" 1700000000000)
   = Ok (Num (Int 0)) \/
   decode (share_record "0" 10 19 "combined_result" 1700000000000)
   = Ok (Num (Int 1))).
Proof.
  destruct (boolean_records_decode_to_bit (world_of [9])) as [He Ha].
  split.
  - apply (He (share_record "a" 2 3 "f" 0) (share_record "b" 4 7 "g" 0)
              _ (after_encode (world_of [9]) 9 18)).
    reflexivity.
  - apply (Ha [share_record "a" 2 3 "f" 0; share_record "b" 2 3 "g" 0]
              _ (after_encode (world_of [9]) 10 19)).
    reflexivity.
Defined.

(** * Further properties of the code *)

(** ** [bigintPow] and [modInverse] *)

Lemma rem_mod_PRIME (z : Z) : Z.rem z PRIME mod PRIME = z mod PRIME.
Proof.
  rewrite (Z.rem_eq z PRIME) by discriminate.
  replace (z - PRIME * (z ÷ PRIME)) with (z + (- (z ÷ PRIME)) * PRIME) by ring.
  apply Z.mod_add. discriminate.
Qed.

Lemma bigintPow_iter (base : Z) (n : nat) :
  Nat.iter n (fun result => Z.rem (result * base) PRIME) 1 mod PRIME
  = base ^ Z.of_nat n mod PRIME.
Proof.
  induction n as [| n IH].
  - reflexivity.
  - rewrite Nat.iter_succ, rem_mod_PRIME.
    rewrite Z.mul_mod, IH, <- Z.mul_mod by discriminate.
    rewrite Nat2Z.inj_succ, Z.pow_succ_r by lia. f_equal. ring.
Qed.

(** X1. [bigintPow base exp] is congruent to [base ^ exp] modulo PRIME
    for every base and exponent; from the exponent 2 on, and for a base
    that is not negative, it is the reduced power itself; for the
    exponents 0 and 1 it returns 1 and the base as it is, not reduced. *)
Theorem bigintPow_power :
  (forall (base : Z) (exp : nat),
      bigintPow base exp mod PRIME = base ^ Z.of_nat exp mod PRIME) /\
  (forall (base : Z) (exp : nat),
      0 <= base -> (2 <= exp)%nat ->
      bigintPow base exp = base ^ Z.of_nat exp mod PRIME) /\
  (forall base : Z, bigintPow base 0 = 1 /\ bigintPow base 1 = base).
Proof.
  split; [| split].
  - intros base [| [| n]].
    + reflexivity.
    + cbn [bigintPow]. rewrite Z.pow_1_r. reflexivity.
    + apply bigintPow_iter.
  - intros base [| [| n]] Hb He; try lia.
    rewrite <- bigintPow_iter.
    change (bigintPow base (S (S n)))
      with (Nat.iter (S (S n)) (fun result => Z.rem (result * base) PRIME) 1).
    assert (Hnn : forall m, 0 <= Nat.iter m (fun result => Z.rem (result * base) PRIME) 1).
    { induction m as [| m IHm]; [cbn; lia |].
      rewrite Nat.iter_succ. apply Z.rem_nonneg; [discriminate | nia]. }
    rewrite (Nat.iter_succ (S n)).
    rewrite rem_field by (pose proof (Hnn (S n)); nia).
    rewrite Z.mod_mod by discriminate. reflexivity.
  - intros base. split; reflexivity.
Qed.

Lemma bigintPow_power_witness :
  bigintPow 3 5 = 3 ^ Z.of_nat 5 mod PRIME.
Proof.
  apply (proj1 (proj2 bigintPow_power) 3 5%nat).
  - lia.
  - lia.
Defined.

Lemma modInverse_loop_done (old_r old_s s : Z) :
  modInverse_loop old_r 0 old_s s = old_s.
Proof. simp modInverse_loop. reflexivity. Qed.

Lemma modInverse_loop_step (old_r r old_s s : Z) :
  r <> 0 ->
  modInverse_loop old_r r old_s s
  = modInverse_loop r (old_r - Z.quot old_r r * r) s (old_s - Z.quot old_r r * s).
Proof.
  intros Hr. rewrite (modInverse_loop_equation_1 old_r r old_s s).
  destruct (stdpp.numbers.Z.eq_dec r 0) as [E | N]; [contradiction |].
  reflexivity.
Qed.

Lemma modInverse_loop_invariant (a : Z) :
  forall r : Z, 0 <= r ->
  forall old_r old_s s t_old t : Z,
    r < old_r ->
    old_r = old_s * a + t_old * PRIME ->
    r = s * a + t * PRIME ->
    (0 <= old_s /\ s <= 0 /\ old_s * r - s * old_r = PRIME) \/
    (old_s <= 0 /\ 0 <= s /\ s * old_r - old_s * r = PRIME) ->
    Z.abs old_s * old_r < PRIME ->
    Z.abs (modInverse_loop old_r r old_s s) < PRIME /\
    exists t' : Z,
      Z.gcd old_r r = modInverse_loop old_r r old_s s * a + t' * PRIME.
Proof.
  intros r Hr. pattern r. apply Zlt_0_ind; [| exact Hr].
  clear r Hr. intros r IH Hr old_r old_s s t_old t Hlt Hold Hcur Hdet Hbound.
  destruct (Z.eq_dec r 0) as [-> | Hne].
  - rewrite modInverse_loop_done. split.
    + nia.
    + exists t_old. rewrite Z.gcd_0_r, Z.abs_eq by lia. exact Hold.
  - rewrite modInverse_loop_step by exact Hne.
    rewrite Z.quot_div_nonneg by lia.
    assert (Hmod : old_r - old_r / r * r = old_r mod r)
      by (rewrite Z.mod_eq by lia; ring).
    pose proof (Z.mod_pos_bound old_r r ltac:(lia)) as Hrange.
    assert (Hq : 0 <= old_r / r) by (apply Z.div_pos; lia).
    assert (Hgcd0 : Z.gcd r (old_r - old_r / r * r) = Z.gcd old_r r).
    { rewrite Hmod. rewrite Z.gcd_comm, Z.gcd_mod by lia. apply Z.gcd_comm. }
    set (q := old_r / r) in *. clearbody q.
    destruct (IH (old_r - q * r) ltac:(lia) r s (old_s - q * s) t (t_old - q * t))
      as (Habs & t' & Hgcd).
    + lia.
    + exact Hcur.
    + rewrite Hold, Hcur. ring.
    + destruct Hdet as [(H1 & H2 & H3) | (H1 & H2 & H3)].
      * right. repeat split; [lia | nia | rewrite <- H3; ring].
      * left. repeat split; [lia | nia | rewrite <- H3; ring].
    + destruct Hdet as [(H1 & H2 & H3) | (H1 & H2 & H3)]; nia.
    + split; [exact Habs |]. exists t'. rewrite <- Hgcd. symmetry. exact Hgcd0.
Qed.

Lemma modInverse_bezout (a : Z) :
  0 < a < PRIME ->
  Z.abs (modInverse_loop a PRIME 1 0) < PRIME /\
  exists t' : Z, Z.gcd a PRIME = modInverse_loop a PRIME 1 0 * a + t' * PRIME.
Proof.
  intros Ha. rewrite modInverse_loop_step by discriminate.
  rewrite Z.quot_small by lia.
  replace (a - 0 * PRIME) with a by ring. replace (1 - 0 * 0) with 1 by ring.
  destruct (modInverse_loop_invariant a a ltac:(lia) PRIME 0 1 1 0) as (Habs & t' & Hg).
  - lia.
  - ring.
  - ring.
  - right. lia.
  - simpl. reflexivity.
  - split; [exact Habs |]. exists t'. rewrite Z.gcd_comm. exact Hg.
Qed.

Lemma modInverse_multiple (k : Z) : modInverse (k * PRIME) = 0.
Proof.
  unfold modInverse. rewrite modInverse_loop_step by discriminate.
  rewrite Z.quot_mul by discriminate.
  replace (k * PRIME - k * PRIME) with 0 by ring.
  rewrite modInverse_loop_done. reflexivity.
Qed.

(** X2. For 0 < a < PRIME, [modInverse a] lies in [0, PRIME) and
    multiplied by [a] it is congruent to gcd(a, PRIME): it is the inverse
    of every [a] that is coprime to PRIME.  On a multiple of PRIME, which
    has no inverse, it returns 0 and throws nothing. *)
Theorem modInverse_inverse :
  (forall a : Z,
      0 < a < PRIME ->
      0 <= modInverse a < PRIME /\
      (a * modInverse a) mod PRIME = Z.gcd a PRIME mod PRIME) /\
  (forall k : Z, modInverse (k * PRIME) = 0).
Proof.
  split; [| exact modInverse_multiple].
  intros a Ha. destruct (modInverse_bezout a Ha) as (Habs & t' & Hg).
  unfold modInverse. set (old_s := modInverse_loop a PRIME 1 0) in *.
  destruct (Z.ltb_spec old_s 0) as [Hneg | Hpos].
  - split; [lia |]. rewrite Hg.
    replace (a * (old_s + PRIME)) with (old_s * a + a * PRIME) by ring.
    rewrite !Z.mod_add by discriminate. reflexivity.
  - split; [lia |]. rewrite Hg.
    rewrite Z.mod_add by discriminate. f_equal. ring.
Qed.

Lemma modInverse_inverse_witness :
  0 <= modInverse 12345 < PRIME /\
  (12345 * modInverse 12345) mod PRIME = Z.gcd 12345 PRIME mod PRIME.
Proof.
  apply (proj1 modInverse_inverse 12345).
  split; [lia | reflexivity].
Defined.

(** ** [reconstructSecret] on two and three shares *)

Lemma mod_shift (x k : Z) : (x + k * PRIME) mod PRIME = x mod PRIME.
Proof. apply Z.mod_add. discriminate. Qed.

Lemma reconstruct_two_mod (y1 y2 : Z) :
  0 <= y1 -> 0 <= y2 ->
  reconstructSecret [y1; y2] = Ok ((2 * y1 - y2) mod PRIME).
Proof.
  intros H1 H2. rewrite reconstruct_two. f_equal.
  pose proof PRIME_pos as HP.
  rewrite Z.add_0_l.
  rewrite (rem_field (y1 * 2)) by lia.
  rewrite (rem_field (_ mod PRIME)) by (apply Z.mod_pos_bound; lia).
  rewrite (rem_field (y2 * (PRIME - 1))) by nia.
  rewrite rem_field.
  2:{ pose proof (Z.mod_pos_bound ((y1 * 2) mod PRIME) PRIME HP).
      pose proof (Z.mod_pos_bound (y2 * (PRIME - 1)) PRIME HP). lia. }
  rewrite Z.mod_mod by lia. rewrite <- Z.add_mod by lia.
  replace (y1 * 2 + y2 * (PRIME - 1)) with (2 * y1 - y2 + y2 * PRIME) by ring.
  rewrite mod_shift. apply normalize_field, mod_in_field.
Qed.

Lemma reconstruct_three (y1 y2 y3 : Z) :
  reconstructSecret [y1; y2; y3]
  = Ok (normalize
          (Z.rem (Z.rem (Z.rem (0 + Z.rem (y1 * 3) PRIME) PRIME
                         + Z.rem (y2 * (PRIME - 3)) PRIME) PRIME
                  + Z.rem (y3 * 1) PRIME) PRIME)).
Proof.
  unfold reconstructSecret.
  cbn [length Nat.ltb Nat.leb seq map fold_left Nat.add nth].
  change (Z.of_nat 1) with 1. change (Z.of_nat 2) with 2.
  change (Z.of_nat 3) with 3.
  replace (lagrange_products [1; 2; 3] 3 0) with (6, 2) by (vm_compute; reflexivity).
  replace (lagrange_products [1; 2; 3] 3 1) with (3, PRIME - 1) by (vm_compute; reflexivity).
  replace (lagrange_products [1; 2; 3] 3 2) with (2, 2) by (vm_compute; reflexivity).
  replace (Z.rem (6 * modInverse 2) PRIME) with 3 by (vm_compute; reflexivity).
  replace (Z.rem (3 * modInverse (PRIME - 1)) PRIME) with (PRIME - 3) by (vm_compute; reflexivity).
  replace (Z.rem (2 * modInverse 2) PRIME) with 1 by (vm_compute; reflexivity).
  reflexivity.
Qed.

Lemma reconstruct_three_mod (y1 y2 y3 : Z) :
  0 <= y1 -> 0 <= y2 -> 0 <= y3 ->
  reconstructSecret [y1; y2; y3] = Ok ((3 * y1 - 3 * y2 + y3) mod PRIME).
Proof.
  intros H1 H2 H3. rewrite reconstruct_three. f_equal.
  pose proof PRIME_pos as HP. assert (HP3 : 3 < PRIME) by reflexivity.
  rewrite Z.add_0_l.
  rewrite (rem_field (y1 * 3)) by lia.
  rewrite (rem_field ((y1 * 3) mod PRIME)) by (apply Z.mod_pos_bound; lia).
  rewrite (rem_field (y2 * (PRIME - 3))) by nia.
  rewrite (rem_field (y3 * 1)) by lia.
  pose proof (Z.mod_pos_bound (y1 * 3) PRIME HP).
  pose proof (Z.mod_pos_bound ((y1 * 3) mod PRIME) PRIME HP).
  pose proof (Z.mod_pos_bound (y2 * (PRIME - 3)) PRIME HP).
  pose proof (Z.mod_pos_bound (y3 * 1) PRIME HP).
  rewrite (rem_field (((y1 * 3) mod PRIME) mod PRIME + _)) by lia.
  pose proof (Z.mod_pos_bound (((y1 * 3) mod PRIME) mod PRIME + (y2 * (PRIME - 3)) mod PRIME) PRIME HP).
  rewrite rem_field by lia.
  rewrite Z.mod_mod by lia.
  rewrite <- (Z.add_mod (y1 * 3)) by lia.
  rewrite <- Z.add_mod by lia.
  replace (y1 * 3 + y2 * (PRIME - 3) + y3 * 1)
    with (3 * y1 - 3 * y2 + y3 + y2 * PRIME) by ring.
  rewrite mod_shift. apply normalize_field, mod_in_field.
Qed.

Lemma map_constant {A B : Type} (b : B) (l : list A) :
  map (fun _ => b) l = repeat b (length l).
Proof. induction l as [| x l IH]; [reflexivity | cbn; rewrite IH; reflexivity]. Qed.

(** X3. With a threshold of 0 or 1 [splitSecret] draws nothing and
    hands every party the secret itself: the polynomial is the
    constant. *)
Theorem splitSecret_threshold_at_most_1 (s : Z) (n k : nat) (w : World) :
  0 <= s < PRIME -> (k <= 1)%nat -> (k <= n)%nat ->
  splitSecret s n k w = Ok (repeat s n, w).
Proof.
  intros Hs Hk Hn. unfold splitSecret.
  destruct (Nat.ltb_spec n k) as [Hlt | _]; [lia |].
  replace (k - 1)%nat with 0%nat by lia.
  cbn [draw_coefficients]. unfold bind, ret. f_equal. f_equal.
  assert (E : forall x : nat, evaluate [s] (Z.of_nat x) 0 0 = s).
  { intros x. cbn [evaluate bigintPow]. rewrite Z.mul_1_r, Z.add_0_l.
    rewrite (rem_field s) by lia.
    rewrite rem_field by (apply Z.mod_pos_bound; reflexivity).
    rewrite Z.mod_mod by discriminate. apply Z.mod_small. exact Hs. }
  rewrite (map_ext _ (fun _ => s) E), map_constant, length_seq. reflexivity.
Qed.

Lemma splitSecret_threshold_at_most_1_witness :
  splitSecret 42 3 1 (world_of [7]) = Ok ([42; 42; 42], world_of [7]).
Proof.
  apply (splitSecret_threshold_at_most_1 42 3 1 (world_of [7])).
  - split; [lia | reflexivity].
  - lia.
  - lia.
Defined.

Lemma splitSecret_3_2 (s : Z) (w : World) :
  in_field s ->
  splitSecret s 3 2 w
  = Ok ([line s (coefficient w) 1; line s (coefficient w) 2;
         line s (coefficient w) 3], after_draw w).
Proof.
  intros Hs.
  rewrite <- !evaluate_line by (try exact Hs; try apply coefficient_in_field; lia).
  reflexivity.
Qed.

(** X4. Three shares with threshold two: all three, and the first two,
    reconstruct the secret.  [reconstructSecret] takes the i-th share it
    is given for the value at i, so the first and third share give the
    secret less the coefficient, and the second and third the secret
    plus the coefficient: any two shares do not do. *)
Theorem split_3_2_reconstruct (s : Z) (w : World) :
  0 <= s < PRIME ->
  exists (y1 y2 y3 : Z) (w' : World),
    splitSecret s 3 2 w = Ok ([y1; y2; y3], w') /\
    reconstructSecret [y1; y2; y3] = Ok s /\
    reconstructSecret [y1; y2] = Ok s /\
    reconstructSecret [y1; y3] = Ok ((s - coefficient w) mod PRIME) /\
    reconstructSecret [y2; y3] = Ok ((s + coefficient w) mod PRIME).
Proof.
  intros Hs. set (a := coefficient w).
  exists (line s a 1), (line s a 2), (line s a 3), (after_draw w).
  split; [apply splitSecret_3_2; exact Hs |].
  pose proof (mod_in_field (s + a * 1)) as H1.
  pose proof (mod_in_field (s + a * 2)) as H2.
  pose proof (mod_in_field (s + a * 3)) as H3.
  unfold in_field in *. fold (line s a 1) (line s a 2) (line s a 3) in *.
  assert (E1 : exists q, line s a 1 = s + a * 1 + q * PRIME).
  { exists (- ((s + a * 1) / PRIME)). unfold line.
    rewrite Z.mod_eq by discriminate. ring. }
  assert (E2 : exists q, line s a 2 = s + a * 2 + q * PRIME).
  { exists (- ((s + a * 2) / PRIME)). unfold line.
    rewrite Z.mod_eq by discriminate. ring. }
  assert (E3 : exists q, line s a 3 = s + a * 3 + q * PRIME).
  { exists (- ((s + a * 3) / PRIME)). unfold line.
    rewrite Z.mod_eq by discriminate. ring. }
  destruct E1 as (q1 & E1), E2 as (q2 & E2), E3 as (q3 & E3).
  split; [| split; [| split]].
  - rewrite reconstruct_three_mod by lia. f_equal.
    rewrite E1, E2, E3.
    replace (3 * (s + a * 1 + q1 * PRIME) - 3 * (s + a * 2 + q2 * PRIME)
             + (s + a * 3 + q3 * PRIME))
      with (s + (3 * q1 - 3 * q2 + q3) * PRIME) by ring.
    rewrite mod_shift. apply Z.mod_small. exact Hs.
  - apply reconstruct_line. exact Hs.
  - rewrite reconstruct_two_mod by lia. f_equal. rewrite E1, E3.
    replace (2 * (s + a * 1 + q1 * PRIME) - (s + a * 3 + q3 * PRIME))
      with (s - a + (2 * q1 - q3) * PRIME) by ring.
    apply mod_shift.
  - rewrite reconstruct_two_mod by lia. f_equal. rewrite E2, E3.
    replace (2 * (s + a * 2 + q2 * PRIME) - (s + a * 3 + q3 * PRIME))
      with (s + a + (2 * q2 - q3) * PRIME) by ring.
    apply mod_shift.
Qed.

Lemma split_3_2_reconstruct_witness :
  exists (y1 y2 y3 : Z) (w' : World),
    splitSecret 42 3 2 (world_of [7]) = Ok ([y1; y2; y3], w') /\
    reconstructSecret [y1; y2; y3] = Ok 42 /\
    reconstructSecret [y1; y2] = Ok 42 /\
    reconstructSecret [y1; y3]
    = Ok ((42 - coefficient (world_of [7])) mod PRIME) /\
    reconstructSecret [y2; y3]
    = Ok ((42 + coefficient (world_of [7])) mod PRIME).
Proof.
  apply (split_3_2_reconstruct 42 (world_of [7])).
  split; [lia | reflexivity].
Defined.

(** ** Three shares with threshold three *)

Lemma evaluate_parabola (s a b x : Z) :
  in_field s -> in_field a -> in_field b -> 0 <= x ->
  Z.rem (Z.rem (Z.rem (0 + Z.rem (s * 1) PRIME) PRIME + Z.rem (a * x) PRIME) PRIME
         + Z.rem (b * (x * x)) PRIME) PRIME
  = parabola s a b x.
Proof.
  intros Hs Ha Hb Hx.
  change (Z.rem (Z.rem (0 + Z.rem (s * 1) PRIME) PRIME + Z.rem (a * x) PRIME) PRIME)
    with (raw_share s a x).
  rewrite evaluate_line by assumption.
  unfold line, parabola, in_field in *. pose proof PRIME_pos as HP.
  rewrite (rem_field (b * (x * x))) by nia.
  pose proof (Z.mod_pos_bound (s + a * x) PRIME HP).
  pose proof (Z.mod_pos_bound (b * (x * x)) PRIME HP).
  rewrite rem_field by lia.
  rewrite <- Z.add_mod by lia. reflexivity.
Qed.

Lemma splitSecret_3_3 (s : Z) (w : World) :
  in_field s ->
  splitSecret s 3 3 w
  = Ok ([parabola s (coefficient w) (coefficient (after_draw w)) 1;
         parabola s (coefficient w) (coefficient (after_draw w)) 2;
         parabola s (coefficient w) (coefficient (after_draw w)) 3],
        after_draw (after_draw w)).
Proof.
  intros Hs.
  rewrite <- !evaluate_parabola
    by (try exact Hs; try apply coefficient_in_field; lia).
  reflexivity.
Qed.

(** X5. Three shares with threshold three reconstruct the secret; the
    first two alone give the secret less twice the second coefficient
    drawn, and nothing is thrown. *)
Theorem split_3_3_reconstruct (s : Z) (w : World) :
  0 <= s < PRIME ->
  exists (y1 y2 y3 : Z) (w' : World),
    splitSecret s 3 3 w = Ok ([y1; y2; y3], w') /\
    reconstructSecret [y1; y2; y3] = Ok s /\
    reconstructSecret [y1; y2]
    = Ok ((s - 2 * coefficient (after_draw w)) mod PRIME).
Proof.
  intros Hs. set (a := coefficient w). set (b := coefficient (after_draw w)).
  exists (parabola s a b 1), (parabola s a b 2), (parabola s a b 3),
    (after_draw (after_draw w)).
  split; [apply splitSecret_3_3; exact Hs |].
  assert (E : forall x, exists q,
               parabola s a b x = s + a * x + b * (x * x) + q * PRIME
               /\ 0 <= parabola s a b x).
  { intros x. exists (- ((s + a * x + b * (x * x)) / PRIME)). unfold parabola.
    split; [rewrite Z.mod_eq by discriminate; ring |].
    apply Z.mod_pos_bound. reflexivity. }
  destruct (E 1) as (q1 & E1 & P1), (E 2) as (q2 & E2 & P2),
    (E 3) as (q3 & E3 & P3).
  split.
  - rewrite reconstruct_three_mod by assumption. f_equal.
    rewrite E1, E2, E3.
    replace (3 * (s + a * 1 + b * (1 * 1) + q1 * PRIME)
             - 3 * (s + a * 2 + b * (2 * 2) + q2 * PRIME)
             + (s + a * 3 + b * (3 * 3) + q3 * PRIME))
      with (s + (3 * q1 - 3 * q2 + q3) * PRIME) by ring.
    rewrite mod_shift. apply Z.mod_small. exact Hs.
  - rewrite reconstruct_two_mod by assumption. f_equal. rewrite E1, E2.
    replace (2 * (s + a * 1 + b * (1 * 1) + q1 * PRIME)
             - (s + a * 2 + b * (2 * 2) + q2 * PRIME))
      with (s - 2 * b + (2 * q1 - q2) * PRIME) by ring.
    apply mod_shift.
Qed.

Lemma split_3_3_reconstruct_witness :
  exists (y1 y2 y3 : Z) (w' : World),
    splitSecret 42 3 3 (world_of [7; 9]) = Ok ([y1; y2; y3], w') /\
    reconstructSecret [y1; y2; y3] = Ok 42 /\
    reconstructSecret [y1; y2]
    = Ok ((42 - 2 * coefficient (after_draw (world_of [7; 9]))) mod PRIME).
Proof.
  apply (split_3_3_reconstruct 42 (world_of [7; 9])).
  split; [lia | reflexivity].
Defined.

(** ** What one share tells *)

Lemma coefficient_with_entropy (a : Z) (w : World) :
  in_field a -> coefficient (with_entropy a w) = a.
Proof.
  unfold in_field. intros Ha. unfold coefficient. cbn [entropy with_entropy].
  assert (PRIME < 2 ^ 256) by reflexivity.
  rewrite (Z.mod_small a (2 ^ 256)) by lia.
  apply Z.rem_small. lia.
Qed.

(** X6. One share of a (2, 2) split tells nothing about the secret:
    whatever other secret [s'] of the field is taken, some coefficient
    makes [splitSecret] hand party 1 the same share, and some coefficient
    makes it hand party 2 the same share. *)
Theorem single_share_fits_every_secret (s s' : Z) (w : World) :
  0 <= s < PRIME -> 0 <= s' < PRIME ->
  exists (y1 y2 : Z) (w' : World),
    splitSecret s 2 2 w = Ok ([y1; y2], w') /\
    (exists (a1 z : Z) (w1 : World),
        0 <= a1 < PRIME /\
        splitSecret s' 2 2 (with_entropy a1 w) = Ok ([y1; z], w1)) /\
    (exists (a2 z : Z) (w2 : World),
        0 <= a2 < PRIME /\
        splitSecret s' 2 2 (with_entropy a2 w) = Ok ([z; y2], w2)).
Proof.
  intros Hs Hs'. set (a := coefficient w).
  exists (line s a 1), (line s a 2), (after_draw w).
  split; [apply splitSecret_2_2_field; exact Hs |].
  pose proof (mod_in_field (s + a * 1)) as H1.
  pose proof (mod_in_field (s + a * 2)) as H2.
  fold (line s a 1) in H1. fold (line s a 2) in H2.
  set (y1 := line s a 1) in *. set (y2 := line s a 2) in *.
  unfold in_field in *. pose proof PRIME_pos as HP.
  split.
  - exists ((y1 - s') mod PRIME), (line s' ((y1 - s') mod PRIME) 2),
      (after_draw (with_entropy ((y1 - s') mod PRIME) w)).
    split; [apply Z.mod_pos_bound; lia |].
    rewrite splitSecret_2_2_field by exact Hs'.
    rewrite coefficient_with_entropy by apply mod_in_field.
    f_equal. f_equal. f_equal. unfold line.
    rewrite Z.mul_1_r, Z.add_mod_idemp_r by lia.
    replace (s' + (y1 - s')) with y1 by ring. apply Z.mod_small. lia.
  - set (a2 := ((y2 - s') * ((PRIME + 1) / 2)) mod PRIME).
    exists a2, (line s' a2 1), (after_draw (with_entropy a2 w)).
    split; [apply Z.mod_pos_bound; lia |].
    rewrite splitSecret_2_2_field by exact Hs'.
    rewrite coefficient_with_entropy by apply mod_in_field.
    f_equal. f_equal. f_equal. f_equal. unfold line, a2.
    rewrite <- Z.add_mod_idemp_r, Z.mul_mod_idemp_l, Z.add_mod_idemp_r by lia.
    replace (s' + (y2 - s') * ((PRIME + 1) / 2) * 2)
      with (y2 + (y2 - s') * PRIME).
    + rewrite mod_shift. apply Z.mod_small. lia.
    + assert (E : (PRIME + 1) / 2 * 2 = PRIME + 1) by reflexivity.
      rewrite <- Z.mul_assoc, E. ring.
Qed.

Lemma single_share_fits_every_secret_witness :
  exists (y1 y2 : Z) (w' : World),
    splitSecret 42 2 2 (world_of [7]) = Ok ([y1; y2], w') /\
    (exists (a1 z : Z) (w1 : World),
        0 <= a1 < PRIME /\
        splitSecret 17 2 2 (with_entropy a1 (world_of [7])) = Ok ([y1; z], w1)) /\
    (exists (a2 z : Z) (w2 : World),
        0 <= a2 < PRIME /\
        splitSecret 17 2 2 (with_entropy a2 (world_of [7])) = Ok ([z; y2], w2)).
Proof.
  apply (single_share_fits_every_secret 42 17 (world_of [7])).
  - split; [lia | reflexivity].
  - split; [lia | reflexivity].
Defined.

Lemma round53_large (z : Z) :
  2 ^ 53 <= z -> 2 ^ Z.log2 z <= round53 z <= 2 ^ (Z.log2 z + 1).
Proof.
  intros Hz. unfold round53.
  destruct (Z.ltb_spec z (2 ^ 53)) as [Hlt | _]; [lia |].
  pose proof (Z.log2_spec z ltac:(lia)) as [Hlo Hhi].
  assert (HL : 53 <= Z.log2 z).
  { apply Z.log2_le_pow2; lia. }
  set (L := Z.log2 z) in *. set (e := L - 52).
  assert (He : 1 <= e) by (unfold e; lia).
  rewrite !Z.shiftr_div_pow2, !Z.shiftl_mul_pow2 by lia.
  assert (H2e : 0 < 2 ^ e) by (apply Z.pow_pos_nonneg; lia).
  assert (EL : 2 ^ L = 2 ^ 52 * 2 ^ e).
  { rewrite <- Z.pow_add_r by lia. f_equal. unfold e. ring. }
  assert (EL1 : 2 ^ Z.succ L = 2 ^ 53 * 2 ^ e).
  { rewrite <- Z.pow_add_r by lia. f_equal. unfold e. ring. }
  assert (Hq : 2 ^ 52 <= z / 2 ^ e < 2 ^ 53).
  { split.
    - apply Z.div_le_lower_bound; lia.
    - apply Z.div_lt_upper_bound; lia. }
  replace (L + 1) with (Z.succ L) by lia.
  set (q := z / 2 ^ e) in *.
  match goal with
  | |- _ <= ?x * _ <= _ =>
      assert (Hq' : q <= x <= q + 1)
        by (repeat match goal with
                   | |- context [if ?c then _ else _] => destruct c
                   end; lia);
      generalize dependent x; intros q' Hq'
  end.
  rewrite EL, EL1. split; apply Z.mul_le_mono_nonneg_r; lia.
Qed.

Lemma round53_small (z : Z) : z < 2 ^ 53 -> round53 z = z.
Proof.
  intros Hz. unfold round53.
  destruct (Z.ltb_spec z (2 ^ 53)); [reflexivity | lia].
Qed.


Lemma round53_one (z : Z) : 0 <= z -> (round53 z =? 1) = (z =? 1).
Proof.
  intros Hz. destruct (Z.lt_ge_cases z (2 ^ 53)) as [Hs | Hl].
  - rewrite round53_small by exact Hs. reflexivity.
  - pose proof (round53_large z Hl) as [Hlo _].
    assert (2 ^ 53 <= 2 ^ Z.log2 z).
    { apply Z.pow_le_mono_r; [lia |]. apply Z.log2_le_pow2; lia. }
    assert (2 ^ 53 = 9007199254740992) by reflexivity.
    destruct (Z.eqb_spec (round53 z) 1); destruct (Z.eqb_spec z 1); lia.
Qed.

(** ** [decode] in closed form; shares that cannot be read *)

Lemma of_hex_nonneg (s : string) (z : Z) : BigInt.of_hex s = Some z -> 0 <= z.
Proof.
  unfold BigInt.of_hex. destruct s as [| c s']; [discriminate |].
  destruct (BigInt.hex_digits (String c s') 0%N) as [n |]; [| discriminate].
  cbn [option_map]. intros H. injection H as <-. lia.
Qed.

Lemma shares_of_nonneg (sv : SecureValue) (y1 y2 : Z) :
  shares_of sv = Some (y1, y2) -> 0 <= y1 /\ 0 <= y2.
Proof.
  unfold shares_of.
  destruct (BigInt.of_hex (party1 (shares sv))) as [a |] eqn:E1; [| discriminate].
  destruct (BigInt.of_hex (party2 (shares sv))) as [b |] eqn:E2; [| discriminate].
  intros H. injection H as <- <-.
  split; eapply of_hex_nonneg; eassumption.
Qed.

Lemma Number_nonneg (v : Z) : 0 <= v -> Number_of_bigint v = Int (round53 v).
Proof.
  intros Hv. unfold Number_of_bigint. rewrite Z.abs_eq by exact Hv.
  destruct (Z.eq_dec v 0) as [-> | Hne]; [reflexivity |].
  rewrite Z.sgn_pos by lia. f_equal. lia.
Qed.

Lemma decode_shares (sv : SecureValue) (y1 y2 : Z) :
  shares_of sv = Some (y1, y2) ->
  decode sv = Ok (Num (Int (round53 ((2 * y1 - y2) mod PRIME)))).
Proof.
  intros H. destruct (shares_of_nonneg sv y1 y2 H) as [H1 H2].
  unfold shares_of in H. unfold decode, BigInt_of_hex.
  destruct (BigInt.of_hex (party1 (shares sv))) as [a |]; [| discriminate].
  destruct (BigInt.of_hex (party2 (shares sv))) as [b |]; [| discriminate].
  injection H as -> ->. cbn [bind_result].
  rewrite reconstruct_two_mod by assumption. cbn [bind_result].
  rewrite Number_nonneg by (apply Z.mod_pos_bound; reflexivity).
  reflexivity.
Qed.










(** ** What the secure operations compute *)

Lemma same_shares_sym (a b : SecureValue) : same_shares a b = same_shares b a.
Proof.
  unfold same_shares.
  destruct (shares_of a) as [[a1 a2] |], (shares_of b) as [[b1 b2] |];
    try reflexivity.
  rewrite (Z.eqb_sym a1), (Z.eqb_sym a2). reflexivity.
Qed.

Lemma same_shares_secret (a b : SecureValue) (s1 s2 : Z) :
  valid_for a s1 -> valid_for b s2 -> same_shares a b = true -> s1 = s2.
Proof.
  intros (Hs1 & y1 & y2 & c1 & Hp1 & Hp2 & _ & _ & Hc1 & -> & ->)
         (Hs2 & z1 & z2 & c2 & Hq1 & Hq2 & _ & _ & Hc2 & -> & ->).
  unfold same_shares, shares_of. rewrite Hp1, Hp2, Hq1, Hq2.
  intros H. apply andb_true_iff in H as [E1 E2].
  apply Z.eqb_eq in E1, E2.
  apply (line_injective s1 c1 s2 c2 Hs1 Hc1 Hs2 Hc2 E1 E2).
Qed.

Lemma same_shares_refl (a : SecureValue) (s : Z) :
  valid_for a s -> same_shares a a = true.
Proof.
  intros (_ & y1 & y2 & c & Hp1 & Hp2 & _).
  unfold same_shares, shares_of. rewrite Hp1, Hp2, !Z.eqb_refl. reflexivity.
Qed.

(** X9. On valid records [secureEquality] returns a record that decodes
    to 1 when both parties hold the same shares in the two records, and
    to 0 otherwise.  Equal shares are shares of equal secrets, so it
    never answers 1 for two different secrets; the comparison is
    symmetric, and a record equals itself. *)
Theorem secureEquality_compares_shares (a b : SecureValue) (s1 s2 : Z) (w : World) :
  valid_for a s1 -> valid_for b s2 ->
  (exists (r : SecureValue) (w' : World),
      secureEquality a b w = Ok (r, w') /\
      decode r = Ok (Num (Int (bit (same_shares a b))))) /\
  (same_shares a b = true -> s1 = s2) /\
  same_shares a b = same_shares b a /\
  same_shares a a = true.
Proof.
  intros Ha Hb. split; [| split; [| split]].
  - destruct (secureEquality_valid a b s1 s2 w Ha Hb) as (r & w' & Hr & Hv).
    exists r, w'. split; [exact Hr | apply decode_bit, Hv].
  - apply (same_shares_secret a b s1 s2 Ha Hb).
  - apply same_shares_sym.
  - apply (same_shares_refl a s1 Ha).
Qed.

Lemma secureEquality_compares_shares_witness :
  (exists (r : SecureValue) (w' : World),
      secureEquality (share_record "a" 2 3 "f" 0) (share_record "b" 4 7 "g" 0)
        (world_of [9]) = Ok (r, w') /\
      decode r
      = Ok (Num (Int (bit (same_shares (share_record "a" 2 3 "f" 0)
                                       (share_record "b" 4 7 "g" 0)))))) /\
  (same_shares (share_record "a" 2 3 "f" 0) (share_record "b" 4 7 "g" 0) = true ->
   1 = 1) /\
  same_shares (share_record "a" 2 3 "f" 0) (share_record "b" 4 7 "g" 0)
  = same_shares (share_record "b" 4 7 "g" 0) (share_record "a" 2 3 "f" 0) /\
  same_shares (share_record "a" 2 3 "f" 0) (share_record "a" 2 3 "f" 0) = true.
Proof.
  apply (secureEquality_compares_shares
           (share_record "a" 2 3 "f" 0) (share_record "b" 4 7 "g" 0) 1 1
           (world_of [9])).
  - apply (share_record_valid "a" "f" 0 1 1); (split; [lia | reflexivity]).
  - apply (share_record_valid "b" "g" 0 1 3); (split; [lia | reflexivity]).
Defined.

Lemma is_one_Number (s : Z) :
  0 <= s -> is_one (Num (Number_of_bigint s)) = (s =? 1).
Proof.
  intros Hs. rewrite Number_nonneg by exact Hs. cbn [is_one].
  apply round53_one, Hs.
Qed.

Lemma all_ones_secrets (l : list SecureValue) (ss : list Z) :
  Forall2 valid_for l ss -> all_ones l = forallb (fun s => s =? 1) ss.
Proof.
  induction 1 as [| sv s l ss Hv _ IH]; [reflexivity |].
  cbn [all_ones forallb]. fold (all_ones l).
  rewrite (decode_valid sv s Hv), IH. f_equal.
  apply is_one_Number. destruct Hv as [Hs _]. apply Hs.
Qed.

Lemma Forall2_valid_Forall (l : list SecureValue) (ss : list Z) :
  Forall2 valid_for l ss -> Forall (fun sv => exists s, valid_for sv s) l.
Proof. induction 1; constructor; eauto. Qed.

(** X10. On valid records [secureAnd] returns a record that decodes to
    1 when every secret is 1, and to 0 otherwise. *)
Theorem secureAnd_conjunction (l : list SecureValue) (ss : list Z) (w : World) :
  Forall2 valid_for l ss ->
  exists (r : SecureValue) (w' : World),
    secureAnd l w = Ok (r, w') /\
    decode r = Ok (Num (Int (bit (forallb (fun s => s =? 1) ss)))).
Proof.
  intros Hl.
  destruct (secureAnd_valid l w (Forall2_valid_Forall l ss Hl)) as (r & w' & Hr & Hv).
  exists r, w'. split; [exact Hr |].
  rewrite <- (all_ones_secrets l ss Hl). apply decode_bit, Hv.
Qed.

Lemma secureAnd_conjunction_witness :
  exists (r : SecureValue) (w' : World),
    secureAnd [share_record "a" 2 3 "f" 0; share_record "b" 3 6 "g" 0]
      (world_of [9]) = Ok (r, w') /\
    decode r = Ok (Num (Int (bit (forallb (fun s => s =? 1) [1; 0])))).
Proof.
  apply (secureAnd_conjunction
           [share_record "a" 2 3 "f" 0; share_record "b" 3 6 "g" 0] [1; 0]
           (world_of [9])).
  constructor; [| constructor; [| constructor]].
  - apply (share_record_valid "a" "f" 0 1 1); (split; [lia | reflexivity]).
  - apply (share_record_valid "b" "g" 0 0 3); (split; [lia | reflexivity]).
Defined.

Lemma total_shares_nonneg (l : list SecureValue) :
  forall t : Z, total_shares l = Some t -> 0 <= t.
Proof.
  induction l as [| sv l IH]; intros t Ht.
  - injection Ht as <-. lia.
  - cbn [total_shares] in Ht.
    destruct (shares_of sv) as [[y1 y2] |] eqn:E; [| discriminate].
    destruct (total_shares l) as [t' |]; [| discriminate].
    injection Ht as <-. destruct (shares_of_nonneg sv y1 y2 E).
    pose proof (IH t' eq_refl). lia.
Qed.

(** X11. [secureAggregate] on records whose shares add up to [t]
    returns the shares [t / 2] and [t - t / 2], which decode to the
    number nearest to [(t / 2 - t mod 2) mod PRIME]; it draws no
    randomness. *)
Theorem secureAggregate_decodes_to_half (l : list SecureValue) (t : Z) (w : World) :
  total_shares l = Some t ->
  exists (r : SecureValue) (w' : World),
    secureAggregate l w = Ok (r, w') /\
    shares_of r = Some (t / 2, t - t / 2) /\
    decode r = Ok (Num (Int (round53 ((t / 2 - t mod 2) mod PRIME)))) /\
    drawn w' = drawn w.
Proof.
  intros Ht. pose proof (total_shares_nonneg l t Ht) as Hpos.
  eexists _, _. split; [apply secureAggregate_record, Ht |].
  rewrite Z.quot_div_nonneg by lia.
  pose proof (Z.div_mod t 2 ltac:(lia)) as Hdm.
  pose proof (Z.mod_pos_bound t 2 ltac:(lia)) as Hm.
  assert (Hsh : shares_of (share_record (uuids w (issued w)) (t / 2) (t - t / 2)
                             "aggregated_sum" (now w))
                = Some (t / 2, t - t / 2))
    by (apply shares_of_share_record; lia).
  split; [exact Hsh |]. split; [| reflexivity].
  rewrite (decode_shares _ _ _ Hsh).
  replace (2 * (t / 2) - (t - t / 2)) with (t / 2 - t mod 2) by lia.
  reflexivity.
Qed.

Lemma secureAggregate_decodes_to_half_witness :
  exists (r : SecureValue) (w' : World),
    secureAggregate [share_record "a" 4 5 "f" 0; share_record "b" 5 6 "f" 0]
      (world_of [9]) = Ok (r, w') /\
    shares_of r = Some (20 / 2, 20 - 20 / 2) /\
    decode r = Ok (Num (Int (round53 ((20 / 2 - 20 mod 2) mod PRIME)))) /\
    drawn w' = drawn (world_of [9]).
Proof.
  apply (secureAggregate_decodes_to_half
           [share_record "a" 4 5 "f" 0; share_record "b" 5 6 "f" 0] 20
           (world_of [9])).
  reflexivity.
Defined.

(** ** The strings and the party maps that [encode] writes *)

Lemma of_pos_length (k : nat) :
  forall (p : positive) (rest : string),
    (Pos.size_nat p <= 4 * k)%nat ->
    (String.length (HexString.Raw.of_pos p rest) <= k + String.length rest)%nat.
Proof.
  induction k as [| k IH]; intros p rest Hk.
  - destruct p; simpl in Hk; lia.
  - do 4 (try destruct p as [p | p |]);
      try (cbn [HexString.Raw.of_pos String.length]; lia);
      cbn [HexString.Raw.of_pos];
      (etransitivity; [apply IH; simpl in Hk |- *; lia |]);
      cbn [String.length]; lia.
Qed.

Lemma size_nat_pow2 (p : positive) :
  2 ^ (Z.of_nat (Pos.size_nat p) - 1) <= Zpos p.
Proof.
  induction p as [p IH | p IH |].
  - cbn [Pos.size_nat]. rewrite Nat2Z.inj_succ.
    replace (Z.succ (Z.of_nat (Pos.size_nat p)) - 1)
      with (Z.succ (Z.of_nat (Pos.size_nat p) - 1)) by lia.
    rewrite Z.pow_succ_r by (destruct p; simpl; lia). lia.
  - cbn [Pos.size_nat]. rewrite Nat2Z.inj_succ.
    replace (Z.succ (Z.of_nat (Pos.size_nat p)) - 1)
      with (Z.succ (Z.of_nat (Pos.size_nat p) - 1)) by lia.
    rewrite Z.pow_succ_r by (destruct p; simpl; lia). lia.
  - reflexivity.
Qed.

Lemma repeat_char_length (n : nat) (c : ascii) :
  String.length (repeat_char n c) = n.
Proof. induction n as [| n IH]; [reflexivity | cbn; rewrite IH; reflexivity]. Qed.

Lemma append_length (a b : string) :
  String.length (a ++ b) = (String.length a + String.length b)%nat.
Proof.
  induction a as [| c a IH]; [reflexivity |].
  change (S (String.length (a ++ b)) = S (String.length a + String.length b)).
  f_equal. exact IH.
Qed.

Lemma padStart_length_64 (z : Z) :
  0 <= z < 2 ^ 256 ->
  String.length (padStart 64 "0" (BigInt.toString16 z)) = 64%nat.
Proof.
  intros Hz. unfold padStart. rewrite append_length, repeat_char_length.
  assert (H : (String.length (BigInt.toString16 z) <= 64)%nat).
  { destruct z as [| p | p]; [cbn; lia | | lia].
    cbn [BigInt.toString16].
    pose proof (of_pos_length 64 p EmptyString) as H. cbn [String.length] in H.
    rewrite Nat.add_0_r in H. apply H.
    pose proof (size_nat_pow2 p) as Hp.
    destruct (Nat.le_gt_cases (Pos.size_nat p) 256) as [Hle | Hgt]; [exact Hle |].
    exfalso.
    assert (2 ^ 256 <= 2 ^ (Z.of_nat (Pos.size_nat p) - 1))
      by (apply Z.pow_le_mono_r; lia).
    lia. }
  lia.
Qed.

Lemma raw_share_range (n a x : Z) :
  0 <= n -> 0 <= a -> 0 <= x -> 0 <= raw_share n a x < PRIME.
Proof.
  intros Hn Ha Hx. unfold raw_share. pose proof PRIME_pos as HP.
  rewrite Z.mul_1_r, Z.add_0_l.
  rewrite (rem_field n) by lia.
  rewrite (rem_field (n mod PRIME)) by (apply Z.mod_pos_bound; lia).
  rewrite (rem_field (a * x)) by nia.
  pose proof (Z.mod_pos_bound (n mod PRIME) PRIME HP).
  pose proof (Z.mod_pos_bound (a * x) PRIME HP).
  rewrite rem_field by lia. apply Z.mod_pos_bound. lia.
Qed.

(** X12. The two share strings that [encode] writes, for a string or
    for a number that is not negative, are 64 characters long. *)
Theorem encode_writes_64_digits (f : string) (w : World) :
  (forall s : string,
      exists (r : SecureValue) (w' : World),
        encode (Str s) f w = Ok (r, w') /\
        String.length (party1 (shares r)) = 64%nat /\
        String.length (party2 (shares r)) = 64%nat) /\
  (forall n : Z,
      0 <= n ->
      exists (r : SecureValue) (w' : World),
        encode (Num (Int n)) f w = Ok (r, w') /\
        String.length (party1 (shares r)) = 64%nat /\
        String.length (party2 (shares r)) = 64%nat).
Proof.
  assert (HP : PRIME < 2 ^ 256) by reflexivity.
  assert (Hnum : forall n : Z,
             0 <= n ->
             exists (r : SecureValue) (w' : World),
               encode (Num (Int n)) f w = Ok (r, w') /\
               String.length (party1 (shares r)) = 64%nat /\
               String.length (party2 (shares r)) = 64%nat).
  { intros n Hn. rewrite encode_number. eexists _, _. split; [reflexivity |].
    cbn [share_record shares party1 party2].
    pose proof (coefficient_in_field w) as Ha. unfold in_field in Ha.
    pose proof (raw_share_range n (coefficient w) 1 Hn ltac:(lia) ltac:(lia)).
    pose proof (raw_share_range n (coefficient w) 2 Hn ltac:(lia) ltac:(lia)).
    split; apply padStart_length_64; lia. }
  split; [| exact Hnum].
  intros s. rewrite encode_string. apply Hnum.
  apply Z.mod_pos_bound. reflexivity.
Qed.

Lemma encode_writes_64_digits_witness :
  exists (r : SecureValue) (w' : World),
    encode (Num (Int 35)) "age" (world_of [7]) = Ok (r, w') /\
    String.length (party1 (shares r)) = 64%nat /\
    String.length (party2 (shares r)) = 64%nat.
Proof.
  apply (proj2 (encode_writes_64_digits "age" (world_of [7])) 35).
  lia.
Defined.

Lemma append_suffix_inj (a b t : string) : (a ++ t = b ++ t)%string -> a = b.
Proof.
  revert b. induction a as [| c a IH]; intros [| d b] H.
  - reflexivity.
  - exfalso. apply (f_equal String.length) in H.
    rewrite !append_length in H. cbn [String.length] in H. lia.
  - exfalso. apply (f_equal String.length) in H.
    rewrite !append_length in H. cbn [String.length] in H. lia.
  - change (String c (a ++ t) = String d (b ++ t))%string in H.
    injection H as -> H. f_equal. apply IH, H.
Qed.

(** X13. After [encode] has returned a record, [getParty1Share] and
    [getParty2Share] on its id answer the hexadecimal numeral of the
    share, without the padding of the record, and nothing for a share
    that is zero; what they answer on another id is as before. *)
Theorem encode_party_shares (v : value) (f : string) (w w' : World)
        (r : SecureValue) :
  encode v f w = Ok (r, w') ->
  exists y1 y2 : Z,
    party1 (shares r) = padStart 64 "0" (BigInt.toString16 y1) /\
    party2 (shares r) = padStart 64 "0" (BigInt.toString16 y2) /\
    getParty1Share (id r) w'
    = (if y1 =? 0 then None else Some (BigInt.toString16 y1)) /\
    getParty2Share (id r) w'
    = (if y2 =? 0 then None else Some (BigInt.toString16 y2)) /\
    (forall shareId : string,
        shareId <> id r ->
        getParty1Share shareId w' = getParty1Share shareId w /\
        getParty2Share shareId w' = getParty2Share shareId w).
Proof.
  assert (Hnum : forall n : Z,
             encode (Num (Int n)) f w = Ok (r, w') ->
             exists y1 y2 : Z,
               party1 (shares r) = padStart 64 "0" (BigInt.toString16 y1) /\
               party2 (shares r) = padStart 64 "0" (BigInt.toString16 y2) /\
               getParty1Share (id r) w'
               = (if y1 =? 0 then None else Some (BigInt.toString16 y1)) /\
               getParty2Share (id r) w'
               = (if y2 =? 0 then None else Some (BigInt.toString16 y2)) /\
               (forall shareId : string,
                   shareId <> id r ->
                   getParty1Share shareId w' = getParty1Share shareId w /\
                   getParty2Share shareId w' = getParty2Share shareId w)).
  { intros n H. rewrite encode_number in H. injection H as <- <-.
    exists (raw_share n (coefficient w) 1), (raw_share n (coefficient w) 2).
    split; [reflexivity |]. split; [reflexivity |].
    unfold getParty1Share, getParty2Share.
    cbn [share_record id after_encode party1Shares party2Shares].
    rewrite !lookup_insert_eq.
    split; [reflexivity |]. split; [reflexivity |].
    intros shareId Hne.
    rewrite !lookup_insert_ne
      by (intros E; apply Hne; symmetry; apply (append_suffix_inj _ _ _ E)).
    split; reflexivity. }
  destruct v as [s | [| n]].
  - rewrite encode_string. apply Hnum.
  - discriminate.
  - apply Hnum.
Qed.

Lemma encode_party_shares_witness :
  exists y1 y2 : Z,
    party1 (shares (share_record "0" 42 49 "age" 1700000000000))
    = padStart 64 "0" (BigInt.toString16 y1) /\
    party2 (shares (share_record "0" 42 49 "age" 1700000000000))
    = padStart 64 "0" (BigInt.toString16 y2) /\
    getParty1Share (id (share_record "0" 42 49 "age" 1700000000000))
      (after_encode (world_of [7]) 42 49)
    = (if y1 =? 0 then None else Some (BigInt.toString16 y1)) /\
    getParty2Share (id (share_record "0" 42 49 "age" 1700000000000))
      (after_encode (world_of [7]) 42 49)
    = (if y2 =? 0 then None else Some (BigInt.toString16 y2)) /\
    (forall shareId : string,
        shareId <> id (share_record "0" 42 49 "age" 1700000000000) ->
        getParty1Share shareId (after_encode (world_of [7]) 42 49)
        = getParty1Share shareId (world_of [7]) /\
        getParty2Share shareId (after_encode (world_of [7]) 42 49)
        = getParty2Share shareId (world_of [7])).
Proof.
  apply (encode_party_shares (Num (Int 35)) "age" (world_of [7])
           (after_encode (world_of [7]) 42 49)
           (share_record "0" 42 49 "age" 1700000000000)).
  reflexivity.
Defined.

(** ** The checkout route *)

Lemma checkout_mpc_verified_valid (sv : SecureValue) (m : Z) (code : string) (w : World) :
  valid_for sv m ->
  exists w' : World,
    checkout_mpc_verified (Some sv) code w
    = Ok (round53 m =? round53 (SHA256.digest_int code mod PRIME), w').
Proof.
  intros Hv. unfold checkout_mpc_verified.
  destruct (encode_string_valid code "verificationCode" w) as (r & w' & Hr & Hc).
  rewrite Hr. rewrite (decode_valid sv m Hv), (decode_valid r _ Hc).
  destruct Hv as [Hm _]. unfold in_field in Hm.
  rewrite !Number_nonneg by (try lia; apply Z.mod_pos_bound; reflexivity).
  exists w'. reflexivity.
Qed.

(** X14. Step 2 of the checkout route on a valid stored record of the
    secret [m]: the code is verified exactly when the numbers nearest to
    [m] and to the digest of the code modulo PRIME are equal, so always
    when [m] is that digest. *)
Theorem checkout_compares_doubles (sv : SecureValue) (m : Z) (code : string) (w : World) :
  valid_for sv m ->
  (exists w' : World,
      checkout_mpc_verified (Some sv) code w
      = Ok (round53 m =? round53 (SHA256.digest_int code mod PRIME), w')) /\
  (m = SHA256.digest_int code mod PRIME ->
   exists w' : World, checkout_mpc_verified (Some sv) code w = Ok (true, w')).
Proof.
  intros Hv. destruct (checkout_mpc_verified_valid sv m code w Hv) as (w' & H).
  split; [exists w'; exact H |].
  intros ->. exists w'. rewrite H, Z.eqb_refl. reflexivity.
Qed.

Lemma checkout_compares_doubles_witness :
  (exists w' : World,
      checkout_mpc_verified
        (Some (share_record "a" (raw_share 35 7 1) (raw_share 35 7 2) "f" 0))
        "AB12CD34" (world_of [9])
      = Ok (round53 35 =? round53 (SHA256.digest_int "AB12CD34" mod PRIME), w')) /\
  (35 = SHA256.digest_int "AB12CD34" mod PRIME ->
   exists w' : World,
     checkout_mpc_verified
       (Some (share_record "a" (raw_share 35 7 1) (raw_share 35 7 2) "f" 0))
       "AB12CD34" (world_of [9])
     = Ok (true, w')).
Proof.
  apply (checkout_compares_doubles
           (share_record "a" (raw_share 35 7 1) (raw_share 35 7 2) "f" 0) 35
           "AB12CD34" (world_of [9])).
  apply share_record_valid; (split; [lia | reflexivity]).
Defined.



(** ** The code comparison of the verify route *)

Lemma padStart_cons (s : Z) :
  exists (c : ascii) (t : string), padStart 64 "0" (BigInt.toString16 s) = String c t.
Proof.
  destruct (padStart 64 "0" (BigInt.toString16 s)) as [| c t] eqn:E.
  - exfalso. apply (f_equal String.length) in E. unfold padStart in E.
    rewrite append_length, repeat_char_length in E. cbn [String.length] in E.
    lia.
  - eauto.
Qed.

Lemma round53_exact (x z : Z) : round53 x = z -> z < 2 ^ 53 -> x = z.
Proof.
  intros Hr Hz. destruct (Z.lt_ge_cases x (2 ^ 53)) as [Hs | Hl].
  - rewrite round53_small in Hr by exact Hs. exact Hr.
  - pose proof (round53_large x Hl) as [Hlo _].
    assert (2 ^ 53 <= 2 ^ Z.log2 x).
    { apply Z.pow_le_mono_r; [lia |]. apply Z.log2_le_pow2; lia. }
    lia.
Qed.

Lemma shortest_numeral_small (z d : Z) :
  z < 2 ^ 53 -> forall (fuel : nat) (k : Z), shortest_numeral fuel k z d = z.
Proof.
  intros Hz. induction fuel as [| fuel IH]; intros k; [reflexivity |].
  cbn [shortest_numeral]. cbv zeta.
  set (below := z / 10 ^ (d - k) * 10 ^ (d - k)).
  set (above := (z / 10 ^ (d - k) + 1) * 10 ^ (d - k)).
  destruct (Z.eqb_spec (round53 below) z) as [Eb | Nb];
    destruct (Z.eqb_spec (round53 above) z) as [Ea | Na];
    try apply round53_exact in Eb; try apply round53_exact in Ea;
    try exact Hz;
    cbn [andb]; rewrite ?andb_true_r, ?andb_false_r;
    repeat match goal with
           | |- context [if ?c then _ else _] => destruct c
           end;
    try assumption; apply IH.
Qed.

(** Below 2^53 the numeral printed is the number itself. *)
Lemma printed_integer_small (z : Z) : z < 2 ^ 53 -> printed_integer z = z.
Proof.
  intros Hz. unfold printed_integer. cbv zeta.
  destruct (Z.eqb_spec (round53 (10 ^ Z.of_nat (String.length (BigInt.toString z)))) z)
    as [E | _].
  - apply round53_exact; assumption.
  - apply shortest_numeral_small, Hz.
Qed.

Lemma to_int_not_nil (z : Z) :
  Z.to_int z <> Decimal.Pos Decimal.Nil /\ Z.to_int z <> Decimal.Neg Decimal.Nil.
Proof.
  split; intros E; pose proof (DecimalZ.of_to z) as H; rewrite E in H;
    cbn in H; subst z; discriminate E.
Qed.

Lemma toString_eqb (a b : Z) :
  String.eqb (BigInt.toString a) (BigInt.toString b) = (a =? b).
Proof.
  destruct (Z.eqb_spec a b) as [-> | Hne]; [apply String.eqb_refl |].
  apply String.eqb_neq. intros E. apply Hne. unfold BigInt.toString in E.
  apply (f_equal NilZero.int_of_string) in E.
  destruct (to_int_not_nil a) as [Ha1 Ha2], (to_int_not_nil b) as [Hb1 Hb2].
  rewrite !NilZero.isi in E by assumption.
  injection E as E. apply DecimalZ.to_int_inj, E.
Qed.

Lemma code_matches_large (stored : SecureValue) (m : Z) :
  valid_for stored m -> 2 ^ 70 <= m ->
  forall providedCode : option string,
    code_matches providedCode (Some stored) = Ok false.
Proof.
  intros Hv Hm [code |]; [| reflexivity].
  unfold code_matches. destruct (truthy (Some code)); [| reflexivity].
  unfold SHA256.digest_hex.
  rewrite BigInt_of_hex_padStart by apply digest_int_nonneg.
  cbn [bind_result]. rewrite (decode_valid stored m Hv). cbn [bind_result].
  rewrite Number_nonneg by lia. cbn [number_prints_as].
  pose proof (round53_large m ltac:(lia)) as [Hlo _].
  assert (2 ^ 70 <= 2 ^ Z.log2 m).
  { apply Z.pow_le_mono_r; [lia |]. apply Z.log2_le_pow2; lia. }
  assert (10 ^ 21 < 2 ^ 70) by reflexivity.
  rewrite (Z.abs_eq (round53 m)) by lia.
  destruct (Z.ltb_spec (round53 m) (10 ^ 21)); [lia | reflexivity].
Qed.

Lemma code_matches_small (stored : SecureValue) (m : Z) (code : string) :
  valid_for stored m -> m < 2 ^ 53 -> code <> EmptyString ->
  code_matches (Some code) (Some stored)
  = Ok (m =? SHA256.digest_int code mod PRIME).
Proof.
  intros Hv Hm Hcode. pose proof Hv as [Hf _]. unfold in_field in Hf.
  unfold code_matches.
  destruct code as [| c code']; [contradiction |]. cbn [truthy].
  unfold SHA256.digest_hex.
  rewrite BigInt_of_hex_padStart by apply digest_int_nonneg.
  cbn [bind_result]. rewrite (decode_valid stored m Hv). cbn [bind_result].
  rewrite Number_nonneg by lia. cbn [number_prints_as].
  rewrite round53_small by exact Hm.
  rewrite (Z.abs_eq m) by lia.
  assert (H21 : 2 ^ 53 < 10 ^ 21) by reflexivity.
  destruct (Z.ltb_spec m (10 ^ 21)) as [_ | Hge]; [| lia]. cbn [andb].
  rewrite printed_integer_small by exact Hm.
  replace (Z.sgn m * m) with m by (destruct m; cbn; lia).
  rewrite toString_eqb. f_equal. f_equal.
  fold PRIME. rewrite Z.rem_mod_nonneg; [reflexivity | | reflexivity].
  apply digest_int_nonneg.
Qed.

(** X16. The code comparison of the verify route on a valid stored
    record of the secret [m].  From 2^70 on no code matches, whatever
    the client sends: the number decoded is printed in exponent notation
    and compared with a decimal numeral.  Below 2^53 a code matches
    exactly when its digest modulo PRIME is [m]. *)
Theorem code_matches_by_magnitude (stored : SecureValue) (m : Z) :
  valid_for stored m ->
  (2 ^ 70 <= m ->
   forall providedCode : option string,
     code_matches providedCode (Some stored) = Ok false) /\
  (m < 2 ^ 53 ->
   forall code : string,
     code <> EmptyString ->
     code_matches (Some code) (Some stored)
     = Ok (m =? SHA256.digest_int code mod PRIME)).
Proof.
  intros Hv. split.
  - intros Hm. apply (code_matches_large stored m Hv Hm).
  - intros Hm code Hcode. apply (code_matches_small stored m code Hv Hm Hcode).
Qed.

Lemma code_matches_by_magnitude_witness :
  code_matches (Some "AB12CD34"%string)
    (Some (share_record "a" (raw_share 1180591620717411303424 7 1)
             (raw_share 1180591620717411303424 7 2) "verificationCode" 0))
  = Ok false.
Proof.
  assert (Hv : valid_for
                 (share_record "a" (raw_share 1180591620717411303424 7 1)
                    (raw_share 1180591620717411303424 7 2)
                    "verificationCode" 0)
                 1180591620717411303424).
  { apply share_record_valid; (split; [lia | reflexivity]). }
  apply (proj1 (code_matches_by_magnitude _ _ Hv)).
  vm_compute. discriminate.
Defined.

(** ** The result of the verify route and the age rules *)

Lemma is_adult_valid (sv : SecureValue) (n : Z) :
  valid_for sv n -> is_adult (Some sv) = (18 <=? n).
Proof.
  intros Hv. unfold is_adult. rewrite (decode_valid sv n Hv).
  destruct Hv as [Hn _]. unfold in_field in Hn.
  rewrite Number_nonneg by lia.
  destruct (Z.lt_ge_cases n (2 ^ 53)) as [Hs | Hl].
  - rewrite round53_small by exact Hs. reflexivity.
  - pose proof (round53_large n Hl) as [Hlo _].
    assert (2 ^ 53 <= 2 ^ Z.log2 n).
    { apply Z.pow_le_mono_r; [lia |]. apply Z.log2_le_pow2; lia. }
    assert (18 < 2 ^ 53) by reflexivity.
    destruct (Z.leb_spec 18 (round53 n)); destruct (Z.leb_spec 18 n); lia.
Qed.





(** X18. The age that the register route stores and the adult check of
    the verify route: for an integer age of the field, the record of
    [encode(age, 'age')] passes the adult check exactly when the age is
    at least 18, and so exactly when the register route, having accepted
    the age, did not flag a minor; an age below 13 is not accepted. *)
Theorem registered_age_adult (a : Z) (w : World) :
  0 <= a < PRIME ->
  exists (r : SecureValue) (w' : World),
    encode (Num (Int a)) "age" w = Ok (r, w') /\
    is_adult (Some r) = (18 <=? a) /\
    (forall isMinor : bool,
        register_age (Int a) = AgeAccepted isMinor ->
        13 <= a /\ is_adult (Some r) = negb isMinor) /\
    (a < 13 -> register_age (Int a) = AgeUnder13).
Proof.
  intros Ha.
  destruct (encode_number_valid a "age" w Ha) as (r & w' & Hr & Hv).
  exists r, w'. split; [exact Hr |].
  rewrite (is_adult_valid r a Hv). split; [reflexivity |].
  unfold register_age.
  destruct (Z.ltb_spec a 0) as [Hneg | _]; [lia |].
  destruct (Z.ltb_spec a 13) as [H13 | H13].
  - split; [discriminate | reflexivity].
  - split; [| lia]. intros isMinor H. injection H as <-.
    split; [exact H13 |].
    destruct (Z.leb_spec 13 a); destruct (Z.ltb_spec a 18);
      destruct (Z.leb_spec 18 a); cbn; lia || reflexivity.
Qed.

Lemma registered_age_adult_witness :
  exists (r : SecureValue) (w' : World),
    encode (Num (Int 16)) "age" (world_of [9]) = Ok (r, w') /\
    is_adult (Some r) = (18 <=? 16) /\
    (forall isMinor : bool,
        register_age (Int 16) = AgeAccepted isMinor ->
        13 <= 16 /\ is_adult (Some r) = negb isMinor) /\
    (16 < 13 -> register_age (Int 16) = AgeUnder13).
Proof.
  apply (registered_age_adult 16 (world_of [9])).
  split; [lia | reflexivity].
Defined.

(** ** The generate-code route, followed by the checkout route *)

Lemma char_at_alphabet (b : Z) :
  0 <= b ->
  exists c : ascii,
    char_at alphabet (Z.rem b 36) = String c EmptyString /\
    In c (list_ascii_of_string alphabet).
Proof.
  intros Hb. rewrite Z.rem_mod_nonneg by lia.
  pose proof (Z.mod_pos_bound b 36 ltac:(lia)) as Hr.
  unfold char_at.
  assert (Hn : (Z.to_nat (b mod 36) < 36)%nat) by lia.
  set (i := Z.to_nat (b mod 36)) in *. clearbody i.
  do 36 (destruct i as [| i]; [eexists; split; [reflexivity | cbn; tauto] |]).
  lia.
Qed.

Lemma generated_code_fold (rnd : list Z) :
  Forall (fun b => 0 <= b) rnd ->
  forall code : string,
    String.length (fold_left
      (fun code b => (code ++ char_at alphabet (Z.rem b 36))%string) rnd code)
    = (String.length code + length rnd)%nat.
Proof.
  induction 1 as [| b rnd Hb _ IH]; intros code.
  - cbn. lia.
  - cbn [fold_left length]. rewrite IH, append_length.
    destruct (char_at_alphabet b Hb) as (c & -> & _). cbn [String.length]. lia.
Qed.

Lemma generated_code_length (rnd : list Z) :
  Forall (fun b => 0 <= b < 256) rnd ->
  String.length (generated_code rnd) = length rnd.
Proof.
  intros H. unfold generated_code. change (Z.of_nat (String.length alphabet)) with 36.
  rewrite generated_code_fold; [reflexivity |].
  eapply Forall_impl; [exact H |]. cbn. intros; lia.
Qed.

Lemma find_by_hash_app (before after : list StoredData) (sd : StoredData) (h : string) :
  Forall (fun row => verificationCodeHash row <> Some h) before ->
  verificationCodeHash sd = Some h ->
  h <> EmptyString ->
  find_by_hash (before ++ sd :: after) h = Some sd.
Proof.
  intros Hb Hsd Hne. induction Hb as [| row before Hrow _ IH].
  - cbn [app find_by_hash]. rewrite Hsd.
    destruct h as [| c h']; [contradiction |].
    cbn [truthy andb]. rewrite String.eqb_refl. reflexivity.
  - cbn [app find_by_hash]. destruct (verificationCodeHash row) as [h0 |]; [| exact IH].
    destruct (String.eqb_spec h0 h) as [-> | _].
    + contradiction Hrow. reflexivity.
    + rewrite andb_false_r. exact IH.
Qed.

Lemma digest_hex_nonempty (code : string) : SHA256.digest_hex code <> EmptyString.
Proof.
  unfold SHA256.digest_hex.
  destruct (padStart_cons (SHA256.digest_int code)) as (c & t & ->). discriminate.
Qed.

Lemma checkout_verify_found (rows : list StoredData) (sd : StoredData)
      (code : string) (b : bool) (w w' : World) :
  code <> EmptyString ->
  find_by_hash rows (SHA256.digest_hex code) = Some sd ->
  checkout_mpc_verified (verificationCode sd) code w = Ok (b, w') ->
  checkout_verify rows code w
  = Ok (Verdict b (if truthy (userId sd) then userId sd else None)
          (if b then None else Some "MPC_NO_MATCH"%string), w').
Proof.
  intros Hne Hfind Hver. unfold checkout_verify.
  destruct code as [| c code']; [contradiction |].
  rewrite Hfind. unfold bind. rewrite Hver. reflexivity.
Qed.

(** X19. The code that the generate-code route issues from 8 bytes is
    8 characters long, and the checkout route, given that code and rows
    among which the updated one is the first to hold its hash, answers
    verified with the user id of that row and no reason. *)
Theorem generated_code_is_accepted
        (existing : StoredData) (identityId : Z) (rnd : list Z)
        (before after : list StoredData) (w : World) :
  length rnd = 8%nat ->
  Forall (fun b => 0 <= b < 256) rnd ->
  Forall (fun row =>
            verificationCodeHash row
            <> Some (SHA256.digest_hex (generated_code rnd))) before ->
  exists (sd : StoredData) (w1 w2 : World),
    generate_code existing identityId rnd w = Ok ((generated_code rnd, sd), w1) /\
    String.length (generated_code rnd) = 8%nat /\
    checkout_verify (before ++ sd :: after) (generated_code rnd) w1
    = Ok (Verdict true (userId sd) None, w2).
Proof.
  intros Hlen Hbytes Hbefore.
  pose proof (generated_code_length rnd Hbytes) as Hl. rewrite Hlen in Hl.
  set (code := generated_code rnd) in *.
  assert (Hcode : code <> EmptyString).
  { intros E. rewrite E in Hl. discriminate Hl. }
  destruct (encode_string_valid code "verificationCode" w) as (sv & w1 & Hsv & Hv).
  destruct (checkout_mpc_verified_valid sv _ code w1 Hv) as (w2 & H2).
  rewrite Z.eqb_refl in H2.
  set (sd := {| verificationCode := Some sv;
                verificationCodeHash := Some (SHA256.digest_hex code);
                userId :=
                  if truthy (userId existing) then userId existing
                  else Some ("TAK-" ++ BigInt.toString identityId)%string |}).
  exists sd, w1, w2.
  split; [| split; [exact Hl |]].
  - unfold generate_code. fold code. unfold bind. rewrite Hsv. reflexivity.
  - rewrite (checkout_verify_found (before ++ sd :: after) sd code true w1 w2 Hcode
               (find_by_hash_app before after sd _ Hbefore eq_refl
                  (digest_hex_nonempty code)) H2).
    cbn [userId sd]. destruct (truthy (userId existing)) eqn:T.
    + rewrite T. reflexivity.
    + reflexivity.
Qed.

Lemma generated_code_is_accepted_witness :
  exists (sd : StoredData) (w1 w2 : World),
    generate_code
      {| verificationCode := None; verificationCodeHash := None; userId := None |}
      7 [0; 27; 30; 255; 36; 100; 1; 200] (world_of [9])
    = Ok ((generated_code [0; 27; 30; 255; 36; 100; 1; 200], sd), w1) /\
    String.length (generated_code [0; 27; 30; 255; 36; 100; 1; 200]) = 8%nat /\
    checkout_verify
      ([{| verificationCode := None; verificationCodeHash := None;
           userId := Some "TAK-1"%string |}] ++ sd :: [])
      (generated_code [0; 27; 30; 255; 36; 100; 1; 200]) w1
    = Ok (Verdict true (userId sd) None, w2).
Proof.
  apply (generated_code_is_accepted
           {| verificationCode := None; verificationCodeHash := None;
              userId := None |}
           7 [0; 27; 30; 255; 36; 100; 1; 200]
           [{| verificationCode := None; verificationCodeHash := None;
               userId := Some "TAK-1"%string |}]
           [] (world_of [9])).
  - reflexivity.
  - repeat constructor; lia.
  - constructor; [discriminate | constructor].
Defined.

